(** * The Hypothetical Machine ("hypo"): decoder, step function and loader

    A shallow embedding of [machine.go].  Go's [int] is taken to be the
    64-bit two's-complement type of the usual platforms; every arithmetic
    operator of the source is written with its wrap-around.  A Go run-time
    panic (index out of range, integer division by zero) is the [None] of
    the option monad, so that "the call returns" is a statement of its own.

    The two I/O hooks of the machine ([input], [output]) live outside the
    model: [Step] receives the value the read hook would return if it were
    called, and reports every hook call it makes as an [Event].  The
    messages that [LoadProgram] and [ResetCPU] log or print are left out. *)

From Stdlib Require Import ZArith Lia List String Ascii Bool.
From stdpp Require Import base option list gmap strings.
Import ListNotations.

Local Open Scope string_scope.
Local Open Scope list_scope.
Local Open Scope Z_scope.

(** ** Go's [int] *)

Module GoInt.

Definition min_int : Z := - 2 ^ 63.
Definition max_int : Z := 2 ^ 63 - 1.

Definition is_int (x : Z) : Prop := min_int <= x <= max_int.

(** Two's-complement reduction of a mathematical result to 64 bits. *)
Definition wrap (x : Z) : Z := (x + 2 ^ 63) mod 2 ^ 64 - 2 ^ 63.

Definition add (a b : Z) : Z := wrap (a + b).
Definition sub (a b : Z) : Z := wrap (a - b).
Definition mul (a b : Z) : Z := wrap (a * b).

(** [a / b] and [a % b]: truncated towards zero; a zero divisor panics. *)
Definition quo (a b : Z) : option Z :=
  if b =? 0 then None else Some (wrap (Z.quot a b)).
Definition rem (a b : Z) : option Z :=
  if b =? 0 then None else Some (wrap (Z.rem a b)).

End GoInt.

(** ** Arrays: indexing outside the array panics *)

Definition index (m : list Z) (i : Z) : option Z :=
  if (0 <=? i) && (i <? Z.of_nat (length m)) then m !! Z.to_nat i else None.

Definition store (m : list Z) (i : Z) (v : Z) : option (list Z) :=
  if (0 <=? i) && (i <? Z.of_nat (length m))
  then Some (<[Z.to_nat i := v]> m) else None.

(** ** machine.go *)

Definition memSize : Z := 50.

Definition inBounds (addr : Z) : bool := (addr >=? 0) && (addr <? memSize).

Definition boundsCap (i : Z) : Z :=
  if i >? 99999 then 99999
  else if i <? -99999 then -99999
  else i.

Inductive loadErr :=
| loadErrBadFile
| loadErrBadLine
| loadErrBadAddr
| loadErrBadValue.

Inductive CPUState :=
| CPUok
| CPUbadinst
| CPUbadaddr
| CPUdivzero
| CPUhalt.

#[global] Instance CPUState_eq_dec : EqDecision CPUState.
Proof. solve_decision. Defined.

#[global] Instance loadErr_eq_dec : EqDecision loadErr.
Proof. solve_decision. Defined.

Record Instruction := mkInstruction { op : string; addr : Z }.

(** The op codes with textual equivalents. *)
Definition ops_entries : list (Z * string) :=
  [ (0, "HLT"); (1, "JEQ"); (2, "JGT"); (3, "JLT"); (5, "JMP"); (6, "JLE");
    (7, "JNE"); (10, "LAC"); (11, "PAC"); (12, "LMQ"); (13, "PMQ");
    (20, "ADD"); (21, "SUB"); (22, "MUL"); (23, "DIV"); (30, "GET");
    (31, "PUT") ].

Definition ops : gmap Z string := list_to_map ops_entries.

Record Machine := mkMachine {
  mem : list Z;      (* [memSize]int *)
  pc : Z;
  ac : Z;
  mq : Z;
  state : CPUState;
  trace : bool
}.

Definition set_mem (h : Machine) (m : list Z) : Machine :=
  mkMachine m (pc h) (ac h) (mq h) (state h) (trace h).
Definition set_pc (h : Machine) (v : Z) : Machine :=
  mkMachine (mem h) v (ac h) (mq h) (state h) (trace h).
Definition set_ac (h : Machine) (v : Z) : Machine :=
  mkMachine (mem h) (pc h) v (mq h) (state h) (trace h).
Definition set_mq (h : Machine) (v : Z) : Machine :=
  mkMachine (mem h) (pc h) (ac h) v (state h) (trace h).
Definition set_state (h : Machine) (s : CPUState) : Machine :=
  mkMachine (mem h) (pc h) (ac h) (mq h) s (trace h).

Definition zeroMem : list Z := replicate (Z.to_nat memSize) 0.

Definition NewMachine : Machine := mkMachine zeroMem 0 0 0 CPUok false.

(** What a [Step] does to the outside world. *)
Inductive Event :=
| EvTrace (i : Instruction)   (* fmt.Println(i) under the trace flag *)
| EvInput (v : Z)             (* h.input() was called and returned v *)
| EvOutput (v : Z).           (* h.output(v) was called *)

(** A method on [*Machine]: the machine after the call is part of the
    result. *)
Definition getInstruction (h : Machine) (a0 : Z)
  : option (Instruction * CPUState * Machine) :=
  if negb (inBounds a0) then Some (mkInstruction "UNK" 0, CPUbadinst, h)
  else
    d ← index (mem h) a0;
    o ← GoInt.quo d 1000;
    a ← GoInt.rem d 1000;
    match ops !! o with
    | None => Some (mkInstruction "UNK" a, CPUbadinst, h)
    | Some name =>
        if negb (inBounds a) then Some (mkInstruction name a, CPUbadaddr, h)
        else Some (mkInstruction name a, CPUok, h)
    end.

Definition op_is (i : Instruction) (name : string) : bool :=
  String.eqb (op i) name.

(** The dispatch of [Step], after the program counter has been advanced. *)
Definition dispatch (h : Machine) (i : Instruction) (inp : Z)
  : option (Machine * list Event) :=
  if op_is i "HLT" then Some (set_state h CPUhalt, [])
  else if op_is i "JEQ" then
    Some (if ac h =? 0 then set_pc h (addr i) else h, [])
  else if op_is i "JGT" then
    Some (if ac h >? 0 then set_pc h (addr i) else h, [])
  else if op_is i "JLT" then
    Some (if ac h <? 0 then set_pc h (addr i) else h, [])
  else if op_is i "JMP" then Some (set_pc h (addr i), [])
  else if op_is i "JLE" then
    Some (if ac h <=? 0 then set_pc h (addr i) else h, [])
  else if op_is i "JNE" then
    Some (if negb (ac h =? 0) then set_pc h (addr i) else h, [])
  else if op_is i "LAC" then
    v ← index (mem h) (addr i); Some (set_ac h v, [])
  else if op_is i "PAC" then
    m ← store (mem h) (addr i) (ac h); Some (set_mem h m, [])
  else if op_is i "LMQ" then
    v ← index (mem h) (addr i); Some (set_mq h v, [])
  else if op_is i "PMQ" then
    m ← store (mem h) (addr i) (mq h); Some (set_mem h m, [])
  else if op_is i "ADD" then
    v ← index (mem h) (addr i);
    Some (set_ac h (boundsCap (GoInt.add (ac h) v)), [])
  else if op_is i "SUB" then
    v ← index (mem h) (addr i);
    Some (set_ac h (boundsCap (GoInt.sub (ac h) v)), [])
  else if op_is i "MUL" then
    v ← index (mem h) (addr i);
    Some (set_mq h (boundsCap (GoInt.mul (mq h) v)), [])
  else if op_is i "DIV" then
    v ← index (mem h) (addr i);
    if v =? 0 then Some (set_state h CPUdivzero, [])
    else
      v1 ← index (mem h) (addr i);
      r ← GoInt.rem (mq h) v1;
      let h1 := set_ac h r in
      v2 ← index (mem h1) (addr i);
      q ← GoInt.quo (mq h1) v2;
      Some (set_mq h1 q, [])
  else if op_is i "GET" then
    m ← store (mem h) (addr i) (boundsCap inp);
    Some (set_mem h m, [EvInput inp])
  else if op_is i "PUT" then
    v ← index (mem h) (addr i); Some (h, [EvOutput v])
  else Some (set_state h CPUbadinst, []).

(** What [Step] prints of the instruction when the trace flag is set. *)
Definition traced (h : Machine) (i : Instruction) : list Event :=
  if trace h then [EvTrace i] else [].

(** [inp] is the value the read hook returns if this step calls it. *)
Definition Step (h : Machine) (inp : Z) : option (Machine * list Event) :=
  '(i, cs, h0) ← getInstruction h (pc h);
  if decide (cs ≠ CPUok) then Some (set_state h0 cs, [])
  else
    let tr := traced h0 i in
    let h1 := set_pc h0 (GoInt.add (pc h0) 1) in
    '(h2, evs) ← dispatch h1 i inp;
    Some (h2, tr ++ evs).

Definition Halted (h : Machine) : bool :=
  if decide (state h ≠ CPUok) then true else false.

Definition ResetCPU (h : Machine) : Machine :=
  set_state (set_pc (set_mq (set_ac h 0) 0) 0) CPUok.

(** ** Go's [regexp], as far as the loader's pattern needs it

    The package documents leftmost-first matching: the match a backtracking
    search finds first.  [run] is that search, in continuation-passing
    style; text and captures are byte strings, which is exact for a pattern
    whose classes are ASCII and whose [.] is followed by the end of text. *)

Module Regexp.

Inductive regex :=
| Class (p : ascii → bool)     (* one character of a class: \d, \s, . *)
| Cat (r1 r2 : regex)          (* r1 r2 *)
| Star (r : regex)             (* r*, greedy *)
| Group (n : nat) (r : regex)  (* (r), the n-th capturing group *)
| Bol                          (* ^ without the m flag *)
| Eol.                         (* $ without the m flag *)

(** A literal character is the class of that character alone. *)
Definition Lit (a : ascii) : regex := Class (Ascii.eqb a).

(** [r+] is [r r*]. *)
Definition Plus (r : regex) : regex := Cat r (Star r).

Definition code (c : ascii) : nat := nat_of_ascii c.

(** [\d] is [0-9]. *)
Definition digit (c : ascii) : bool :=
  (48 <=? code c)%nat && (code c <=? 57)%nat.

(** [\s] is [\t\n\f\r ]. *)
Definition space (c : ascii) : bool :=
  (code c =? 9)%nat || (code c =? 10)%nat || (code c =? 12)%nat
  || (code c =? 13)%nat || (code c =? 32)%nat.

(** [.] without the s flag: anything but a newline. *)
Definition dot (c : ascii) : bool := negb (code c =? 10)%nat.

Definition caps := nat → list ascii.

Definition no_caps : caps := fun _ => [].

Definition set_cap (c : caps) (n : nat) (s : list ascii) : caps :=
  fun k => if (k =? n)%nat then s else c k.

Definition slice (w : list ascii) (i j : nat) : list ascii :=
  take (j - i) (drop i w).

Section Search.

Variable w : list ascii.

Definition one (p : ascii → bool) (i : nat) (c : caps)
    (k : nat → caps → option (nat * caps)) : option (nat * caps) :=
  match w !! i with
  | Some b => if p b then k (S i) c else None
  | None => None
  end.

(** The loop of a star: one more round of [step] if it succeeds and
    moves on, else the continuation; a round on the empty string is
    not taken. *)
Fixpoint star_loop
    (step : nat → caps → (nat → caps → option (nat * caps))
            → option (nat * caps))
    (k : nat → caps → option (nat * caps))
    (fuel i : nat) (c : caps) : option (nat * caps) :=
  match fuel with
  | O => k i c
  | S fuel' =>
      match step i c (fun j c' =>
              if (i <? j)%nat then star_loop step k fuel' j c'
              else None) with
      | Some res => Some res
      | None => k i c
      end
  end.

Fixpoint run (r : regex) (i : nat) (c : caps)
    (k : nat → caps → option (nat * caps)) : option (nat * caps) :=
  match r with
  | Class p => one p i c k
  | Cat r1 r2 => run r1 i c (fun j c' => run r2 j c' k)
  | Star r1 => star_loop (run r1) k (S (length w)) i c
  | Group n r1 => run r1 i c (fun j c' => k j (set_cap c' n (slice w i j)))
  | Bol => if (i =? 0)%nat then k i c else None
  | Eol => if (i =? length w)%nat then k i c else None
  end.

(** The first start position, from the left, at which the search
    succeeds. *)
Fixpoint find_from (r : regex) (n i : nat) : option (nat * nat * caps) :=
  match run r i no_caps (fun j c => Some (j, c)) with
  | Some (j, c) => Some (i, j, c)
  | None =>
      match n with
      | O => None
      | S n' => find_from r n' (S i)
      end
  end.

(** What it is for [r] to match the text between two positions,
    taking the captures from [c] to [c']. *)
Inductive matches : regex → nat → caps → nat → caps → Prop :=
| matches_class p b i c :
    w !! i = Some b → p b = true → matches (Class p) i c (S i) c
| matches_cat r1 r2 i j k c c1 c2 :
    matches r1 i c j c1 → matches r2 j c1 k c2 →
    matches (Cat r1 r2) i c k c2
| matches_star_done r i c : matches (Star r) i c i c
| matches_star_more r i j k c c1 c2 :
    matches r i c j c1 → matches (Star r) j c1 k c2 →
    matches (Star r) i c k c2
| matches_group n r i j c c1 :
    matches r i c j c1 →
    matches (Group n r) i c j (set_cap c1 n (slice w i j))
| matches_bol c : matches Bol O c O c
| matches_eol c : matches Eol (length w) c (length w) c.

End Search.

(** The groups a pattern can set. *)
Fixpoint sets_group (r : regex) (n : nat) : bool :=
  match r with
  | Cat r1 r2 => sets_group r1 n || sets_group r2 n
  | Star r1 => sets_group r1 n
  | Group k r1 => (n =? k)%nat || sets_group r1 n
  | _ => false
  end.

Fixpoint groups (r : regex) : nat :=
  match r with
  | Cat r1 r2 => Nat.max (groups r1) (groups r2)
  | Star r1 => groups r1
  | Group n r1 => Nat.max n (groups r1)
  | _ => O
  end.

(** [nil] is [None]; otherwise the whole match followed by the text of
    each group (empty for a group that took no part). *)
Definition FindStringSubmatch (r : regex) (w : list ascii)
  : option (list (list ascii)) :=
  match find_from w r (length w) O with
  | None => None
  | Some (i, j, c) => Some (slice w i j :: map c (seq 1 (groups r)))
  end.

End Regexp.

(** ** [strconv.Atoi], as the package documents it: an optional sign, then
    one or more decimal digits, the whole within the range of [int]; any
    other text is an error. *)

Module strconv.

Definition digit_val (c : ascii) : option Z :=
  if Regexp.digit c then Some (Z.of_nat (Regexp.code c) - 48) else None.

Fixpoint digits_val (acc : Z) (s : list ascii) : option Z :=
  match s with
  | [] => Some acc
  | c :: s' => d ← digit_val c; digits_val (acc * 10 + d) s'
  end.

Definition sign (s : list ascii) : bool * list ascii :=
  match s with
  | c :: t =>
      if Ascii.eqb c "-" then (true, t)
      else if Ascii.eqb c "+" then (false, t)
      else (false, s)
  | [] => (false, s)
  end.

Definition Atoi (s : list ascii) : option Z :=
  let '(neg, ds) := sign s in
  match ds with
  | [] => None
  | _ =>
      n ← digits_val 0 ds;
      let v := if neg then - n else n in
      if (GoInt.min_int <=? v) && (v <=? GoInt.max_int) then Some v
      else None
  end.

End strconv.

(** ** The loader *)

(** What [bufio.Scanner] hands to the loop of [LoadProgram]: the lines
    [s.Text()] yields, in order, and whether [s.Err()] is non-nil once
    [s.Scan()] has returned false. *)
Record Reader := mkReader { lines : list (list ascii); scan_err : bool }.

Definition bytes (s : string) : list ascii := list_ascii_of_string s.

(** The pattern compiled in [LoadProgram]: start of text; group 1, one or
    more digits; a colon; any amount of white space; group 2, any number of
    dashes followed by one or more digits; any number of times group 3, one
    white-space character followed by any characters; end of text. *)
Definition re : Regexp.regex :=
  let d := Regexp.Class Regexp.digit in
  let s := Regexp.Class Regexp.space in
  Regexp.Cat Regexp.Bol
   (Regexp.Cat (Regexp.Group 1 (Regexp.Plus d))
   (Regexp.Cat (Regexp.Lit ":")
   (Regexp.Cat (Regexp.Star s)
   (Regexp.Cat (Regexp.Group 2 (Regexp.Cat (Regexp.Star (Regexp.Lit "-"))
                                           (Regexp.Plus d)))
   (Regexp.Cat (Regexp.Star
                  (Regexp.Group 3 (Regexp.Cat s
                                     (Regexp.Star (Regexp.Class Regexp.dot)))))
               Regexp.Eol))))).

(** The body of the loop for one line: [inl e] is [return e], [inr h] goes
    on to the next line. *)
Definition loadLine (h : Machine) (line : list ascii)
  : option (loadErr + Machine) :=
  match Regexp.FindStringSubmatch re line with
  | None => Some (inl loadErrBadLine)
  | Some m =>
      m1 ← m !! 1%nat;
      match strconv.Atoi m1 with
      | None => Some (inl loadErrBadAddr)
      | Some a =>
          if (a <? 0) || (a >=? memSize) then Some (inl loadErrBadAddr)
          else
            m2 ← m !! 2%nat;
            match strconv.Atoi m2 with
            | None => Some (inl loadErrBadValue)
            | Some v =>
                mem' ← store (mem h) a (boundsCap v);
                Some (inr (set_mem h mem'))
            end
      end
  end.

Fixpoint scanLoop (h : Machine) (ls : list (list ascii))
  : option (Machine * option loadErr) :=
  match ls with
  | [] => Some (h, None)
  | line :: rest =>
      r ← loadLine h line;
      match r with
      | inl e => Some (h, Some e)
      | inr h' => scanLoop h' rest
      end
  end.

(** [None] in the second component is Go's [nil] error. *)
Definition LoadProgram (h : Machine) (r : Reader)
  : option (Machine * option loadErr) :=
  let h1 := set_state h CPUhalt in
  let h2 := set_mem h1 zeroMem in
  '(h3, e) ← scanLoop h2 (lines r);
  match e with
  | Some e => Some (h3, Some e)
  | None =>
      if scan_err r then Some (h3, Some loadErrBadFile)
      else Some (set_state h3 CPUok, None)
  end.

(** ** Reading the loader's result *)

(** The address and the value a line assigns, or the failure it causes:
    the decisions of [loadLine], without the machine. *)
Definition parseLine (line : list ascii) : loadErr + Z * Z :=
  match Regexp.FindStringSubmatch re line with
  | None => inl loadErrBadLine
  | Some m =>
      match strconv.Atoi (nth 1 m []) with
      | None => inl loadErrBadAddr
      | Some a =>
          if (a <? 0) || (a >=? memSize) then inl loadErrBadAddr
          else
            match strconv.Atoi (nth 2 m []) with
            | None => inl loadErrBadValue
            | Some v => inr (a, v)
            end
      end
  end.

(** A line that makes an assignment. *)
Definition loads (line : list ascii) : Prop := ∃ av, parseLine line = inr av.

(** The assignments of the lines [ls], made in order on the memory [m];
    it stops at a line that fails. *)
Fixpoint assignLines (m : list Z) (ls : list (list ascii)) : list Z :=
  match ls with
  | [] => m
  | line :: rest =>
      match parseLine line with
      | inl _ => m
      | inr (a, v) => assignLines (<[Z.to_nat a := boundsCap v]> m) rest
      end
  end.

(** The position and the failure of the first line that fails. *)
Fixpoint firstFailure (ls : list (list ascii)) : option (nat * loadErr) :=
  match ls with
  | [] => None
  | line :: rest =>
      match parseLine line with
      | inl e => Some (O, e)
      | inr _ => (λ '(k, e), (S k, e)) <$> firstFailure rest
      end
  end.

(** The number a string of decimal digits denotes. *)
Definition decimal_step (acc : Z) (c : ascii) : Z :=
  acc * 10 + (Z.of_nat (Regexp.code c) - 48).

Definition decimal (ds : list ascii) : Z := foldl decimal_step 0 ds.

(** A value token of [n] dashes and the digits [ds] that is not the text
    of an [int]. *)
Definition unparsable (n : nat) (ds : list ascii) : Prop :=
  (2 <= n)%nat
  ∨ (n = 0%nat ∧ GoInt.max_int < decimal ds)
  ∨ (n = 1%nat ∧ 2 ^ 63 < decimal ds).

(** ** Sequences of calls *)

(** [Step] called once for each element of [inps]. *)
Fixpoint Steps (h : Machine) (inps : list Z) : option (Machine * list Event) :=
  match inps with
  | [] => Some (h, [])
  | inp :: rest =>
      '(h1, e1) ← Step h inp;
      '(h2, e2) ← Steps h1 rest;
      Some (h2, e1 ++ e2)
  end.

(** The calls a client can make on a machine. *)
Inductive Call :=
| CallLoadProgram (r : Reader)
| CallStep (inp : Z)
| CallResetCPU.

Definition call (h : Machine) (c : Call) : option Machine :=
  match c with
  | CallLoadProgram r => fst <$> LoadProgram h r
  | CallStep inp => fst <$> Step h inp
  | CallResetCPU => Some (ResetCPU h)
  end.

Fixpoint calls (h : Machine) (cs : list Call) : option Machine :=
  match cs with
  | [] => Some h
  | c :: rest => h' ← call h c; calls h' rest
  end.

(** ** Predicates on machines *)

Definition is_intb (x : Z) : bool :=
  (GoInt.min_int <=? x) && (x <=? GoInt.max_int).

(** What the Go types say of a [Machine]: fifty cells, every number an
    [int]. *)
Definition typed (h : Machine) : bool :=
  (length (mem h) =? Z.to_nat memSize)%nat
  && forallb is_intb (mem h)
  && is_intb (pc h) && is_intb (ac h) && is_intb (mq h).

(** The legal values of the machine, [-99999, 99999]. *)
Definition legal (x : Z) : bool := (-99999 <=? x) && (x <=? 99999).

Definition bounded (h : Machine) : bool :=
  (length (mem h) =? Z.to_nat memSize)%nat
  && forallb legal (mem h) && legal (ac h) && legal (mq h).

(** Two machines that differ in [state] at most. *)
Definition agree (h1 h2 : Machine) : Prop :=
  mem h1 = mem h2 ∧ pc h1 = pc h2 ∧ ac h1 = ac h2 ∧ mq h1 = mq h2
  ∧ trace h1 = trace h2.

(** The machine with one word at address 0, another at address 1, and a
    given MQ: the fixture of the repository's tests. *)
Definition fixture (w0 w1 q : Z) : Machine :=
  mkMachine (<[1%nat := w1]> (<[0%nat := w0]> zeroMem)) 0 0 q CPUok false.

(** What a call keeps of a machine. *)
Record kept (h h' : Machine) : Prop := mkKept {
  kept_typed : typed h = true → typed h' = true;
  kept_bounded : bounded h = true → bounded h' = true;
  kept_state : state h' = CPUok → state h = CPUok;
  kept_trace : trace h' = trace h
}.

(** ** The rest of machine.go *)

Definition set_trace (h : Machine) (b : bool) : Machine :=
  mkMachine (mem h) (pc h) (ac h) (mq h) (state h) b.

Definition ToggleTrace (h : Machine) : Machine :=
  set_trace h (negb (trace h)).

(** [Run]: step, then stop if the machine is halted, else go round again.
    The list gives what the read hook returns in each round and bounds the
    number of rounds: the last component tells whether the loop has ended
    within them. *)
Fixpoint Run (h : Machine) (inps : list Z)
  : option (Machine * list Event * bool) :=
  match inps with
  | [] => Some (h, [], false)
  | inp :: rest =>
      '(h1, e1) ← Step h inp;
      if Halted h1 then Some (h1, e1, true)
      else
        '(h2, e2, ended) ← Run h1 rest;
        Some (h2, e1 ++ e2, ended)
  end.

(** The hook calls among the events of a step. *)
Definition is_hook (e : Event) : bool :=
  match e with
  | EvTrace _ => false
  | _ => true
  end.

Definition hooks (evs : list Event) : list Event := List.filter is_hook evs.

(** The value the last of the lines [ls] that names cell [i] gives it. *)
Fixpoint assigned (ls : list (list ascii)) (i : nat) : option Z :=
  match ls with
  | [] => None
  | line :: rest =>
      match assigned rest i with
      | Some v => Some v
      | None =>
          match parseLine line with
          | inr (a, v) =>
              if (Z.to_nat a =? i)%nat then Some (boundsCap v) else None
          | inl _ => None
          end
      end
  end.

(** The lines the pattern of the loader accepts: an address of digits, a
    colon, white space, a value of dashes and digits, and nothing more or
    a white-space character and anything. *)
Record Line := mkLine {
  l_addr : list ascii;
  l_gap : list ascii;
  l_dashes : nat;
  l_digits : list ascii;
  l_rest : list ascii
}.

Definition l_value (l : Line) : list ascii :=
  replicate (l_dashes l) "-"%char ++ l_digits l.

Definition l_text (l : Line) : list ascii :=
  l_addr l ++ ":"%char :: l_gap l ++ l_value l ++ l_rest l.

Definition is_empty (s : list ascii) : bool :=
  match s with
  | [] => true
  | _ => false
  end.

Definition starts_with (p : ascii → bool) (s : list ascii) : bool :=
  match s with
  | [] => false
  | c :: _ => p c
  end.

Definition l_wf (l : Line) : bool :=
  negb (is_empty (l_addr l)) && forallb Regexp.digit (l_addr l)
  && forallb Regexp.space (l_gap l)
  && negb (is_empty (l_digits l)) && forallb Regexp.digit (l_digits l)
  && (is_empty (l_rest l) || starts_with Regexp.space (l_rest l)).

(** ** Tactics *)

Ltac split_op i name := destruct (op_is i name) eqn:?.

(** The cases of the switch, in the order of the source. *)
Ltac dispatch_cases i :=
  unfold dispatch;
  split_op i "HLT"; [| split_op i "JEQ"; [| split_op i "JGT";
  [| split_op i "JLT"; [| split_op i "JMP"; [| split_op i "JLE";
  [| split_op i "JNE"; [| split_op i "LAC"; [| split_op i "PAC";
  [| split_op i "LMQ"; [| split_op i "PMQ"; [| split_op i "ADD";
  [| split_op i "SUB"; [| split_op i "MUL"; [| split_op i "DIV";
  [| split_op i "GET"; [| split_op i "PUT" ]]]]]]]]]]]]]]]].

Ltac invert H := inversion H; subst; clear H.

Create HintDb hypo.

(** * Properties *)

Arguments GoInt.wrap : simpl never.
Arguments GoInt.add : simpl never.
Arguments GoInt.sub : simpl never.
Arguments GoInt.mul : simpl never.
Arguments GoInt.quo : simpl never.
Arguments GoInt.rem : simpl never.
Arguments index : simpl never.
Arguments store : simpl never.
Arguments boundsCap : simpl never.
Arguments inBounds : simpl never.
Arguments getInstruction : simpl never.
Arguments loadLine : simpl never.

(** ** Integers and arrays *)

Lemma is_intb_true x : is_intb x = true ↔ GoInt.is_int x.
Proof. unfold is_intb, GoInt.is_int. rewrite andb_true_iff. lia. Qed.

Lemma legal_true x : legal x = true ↔ -99999 <= x <= 99999.
Proof. unfold legal. rewrite andb_true_iff. lia. Qed.

Lemma legal_is_int x : legal x = true → GoInt.is_int x.
Proof.
  rewrite legal_true. unfold GoInt.is_int, GoInt.min_int, GoInt.max_int. lia.
Qed.

Lemma wrap_is_int x : GoInt.is_int (GoInt.wrap x).
Proof.
  unfold GoInt.is_int, GoInt.wrap, GoInt.min_int, GoInt.max_int.
  pose proof (Z.mod_pos_bound (x + 2 ^ 63) (2 ^ 64)). lia.
Qed.

Lemma wrap_small x : GoInt.is_int x → GoInt.wrap x = x.
Proof.
  unfold GoInt.is_int, GoInt.wrap, GoInt.min_int, GoInt.max_int. intros Hx.
  rewrite Z.mod_small; lia.
Qed.

Lemma quot_bound a b : b ≠ 0 → Z.abs (Z.quot a b) <= Z.abs a.
Proof.
  intros Hb. rewrite <- Z.quot_abs by done.
  apply Z.quot_le_upper_bound; [lia|]. nia.
Qed.

Lemma rem_abs_bound a b : b ≠ 0 → Z.abs (Z.rem a b) < Z.abs b.
Proof. intros Hb. rewrite <- Z.rem_abs by done. apply Z.rem_bound_pos; lia. Qed.

Lemma rem_between a b :
  b ≠ 0 →
  (0 <= a → 0 <= Z.rem a b <= a) ∧ (a <= 0 → a <= Z.rem a b <= 0).
Proof.
  intros Hb. split; intros Ha.
  - split; [by apply Z.rem_nonneg|].
    destruct (Z_lt_le_dec a (Z.abs b)).
    + rewrite <- (Z.rem_abs_r a b) by done. rewrite Z.rem_small; lia.
    + pose proof (rem_abs_bound a b Hb). lia.
  - split; [|by apply Z.rem_nonpos].
    pose proof (Z.rem_nonpos a b Hb Ha).
    destruct (Z_lt_le_dec (- a) (Z.abs b)).
    + rewrite <- (Z.rem_abs_r a b) by done.
      rewrite <- (Z.opp_involutive a) at 2. rewrite Z.rem_opp_l by lia.
      rewrite Z.rem_small; lia.
    + pose proof (rem_abs_bound a b Hb). lia.
Qed.

Lemma GoInt_rem_exact a b :
  GoInt.is_int a → b ≠ 0 → GoInt.rem a b = Some (Z.rem a b).
Proof.
  intros Ha Hb. unfold GoInt.rem.
  destruct (Z.eqb_spec b 0); [done|]. f_equal. apply wrap_small.
  destruct (rem_between a b Hb) as [Hp Hn].
  unfold GoInt.is_int, GoInt.min_int, GoInt.max_int in *.
  destruct (Z_lt_le_dec a 0); [specialize (Hn ltac:(lia))|specialize (Hp ltac:(lia))]; lia.
Qed.

Lemma GoInt_quo_exact a b :
  GoInt.is_int a → b ≠ 0 → ¬ (a = GoInt.min_int ∧ b = -1) →
  GoInt.quo a b = Some (Z.quot a b).
Proof.
  intros Ha Hb Hov. unfold GoInt.quo.
  destruct (Z.eqb_spec b 0); [done|]. f_equal. apply wrap_small.
  pose proof (quot_bound a b Hb).
  unfold GoInt.is_int, GoInt.min_int, GoInt.max_int in *.
  destruct (Z.eq_dec b (-1)) as [->|Hb1].
  - rewrite <- (Z.opp_involutive (-1)), Z.quot_opp_r, Z.quot_1_r by lia. lia.
  - destruct (Z.eq_dec a (- 2 ^ 63)) as [->|]; [|lia].
    destruct (Z.eq_dec b 1) as [->|].
    + rewrite Z.quot_1_r. lia.
    + assert (Z.abs (- 2 ^ 63 ÷ b) <= 2 ^ 62); [|lia].
      rewrite <- Z.quot_abs by done.
      change (Z.abs (- 2 ^ 63)) with (2 ^ 63).
      change (2 ^ 62) with (2 ^ 63 ÷ 2).
      apply Z.quot_le_compat_l; lia.
Qed.

Lemma index_Some (m : list Z) i :
  0 <= i < Z.of_nat (length m) →
  ∃ v, index m i = Some v ∧ m !! Z.to_nat i = Some v.
Proof.
  intros Hi. unfold index.
  destruct (Z.leb_spec 0 i), (Z.ltb_spec i (Z.of_nat (length m))); try lia.
  simpl. destruct (lookup_lt_is_Some_2 m (Z.to_nat i)) as [v Hv]; [lia|].
  eauto.
Qed.

Lemma index_lookup (m : list Z) i v :
  index m i = Some v → 0 <= i < Z.of_nat (length m) ∧ m !! Z.to_nat i = Some v.
Proof.
  unfold index.
  destruct (Z.leb_spec 0 i), (Z.ltb_spec i (Z.of_nat (length m)));
    simpl; intros; simplify_eq; done.
Qed.

Lemma store_Some (m : list Z) i v :
  0 <= i < Z.of_nat (length m) → store m i v = Some (<[Z.to_nat i := v]> m).
Proof.
  intros Hi. unfold store.
  by destruct (Z.leb_spec 0 i), (Z.ltb_spec i (Z.of_nat (length m))); try lia.
Qed.

Lemma inBounds_true a : inBounds a = true ↔ 0 <= a < 50.
Proof. unfold inBounds, memSize. rewrite andb_true_iff. lia. Qed.

Lemma inBounds_false a : inBounds a = false ↔ ¬ (0 <= a < 50).
Proof. rewrite <- inBounds_true. destruct (inBounds a); naive_solver. Qed.

Lemma boundsCap_legal x : legal (boundsCap x) = true.
Proof.
  apply legal_true. unfold boundsCap.
  destruct (Z.gtb_spec x 99999), (Z.ltb_spec x (-99999)); lia.
Qed.

Lemma boundsCap_id x : legal x = true → boundsCap x = x.
Proof.
  rewrite legal_true. unfold boundsCap.
  destruct (Z.gtb_spec x 99999), (Z.ltb_spec x (-99999)); lia.
Qed.

Lemma forallb_Forall {A} (p : A → bool) (l : list A) :
  forallb p l = true ↔ Forall (λ x, p x = true) l.
Proof.
  induction l as [|a l IH]; simpl.
  - split; [constructor|done].
  - rewrite andb_true_iff, Forall_cons, IH. done.
Qed.

Lemma typed_iff h :
  typed h = true ↔
  length (mem h) = 50%nat ∧ Forall GoInt.is_int (mem h)
  ∧ GoInt.is_int (pc h) ∧ GoInt.is_int (ac h) ∧ GoInt.is_int (mq h).
Proof.
  unfold typed.
  rewrite !andb_true_iff, !is_intb_true, Nat.eqb_eq, forallb_Forall.
  assert (Forall (λ x, is_intb x = true) (mem h) ↔ Forall GoInt.is_int (mem h))
    as ->.
  { apply Forall_proper; [|done]. intros x. apply is_intb_true. }
  change (Z.to_nat memSize) with 50%nat. tauto.
Qed.

Lemma bounded_iff h :
  bounded h = true ↔
  length (mem h) = 50%nat ∧ Forall (λ x, legal x = true) (mem h)
  ∧ legal (ac h) = true ∧ legal (mq h) = true.
Proof.
  unfold bounded. rewrite !andb_true_iff, Nat.eqb_eq, forallb_Forall.
  change (Z.to_nat memSize) with 50%nat. tauto.
Qed.

Lemma bounded_typed h :
  bounded h = true → GoInt.is_int (pc h) → typed h = true.
Proof.
  rewrite bounded_iff, typed_iff. intros (Hl & Hm & Ha & Hq) Hp.
  split; [done|]. split.
  { eapply Forall_impl; [exact Hm|]. intros x. apply legal_is_int. }
  split; [done|]. split; by apply legal_is_int.
Qed.

(** ** The decoder *)

Lemma ops_keys_NoDup : NoDup ops_entries.*1.
Proof. apply (bool_decide_unpack _). by vm_compute. Qed.

Lemma ops_lookup_Some o name : ops !! o = Some name ↔ (o, name) ∈ ops_entries.
Proof. symmetry. apply elem_of_list_to_map, ops_keys_NoDup. Qed.

Lemma ops_lookup_None o : ops !! o = None ↔ o ∉ ops_entries.*1.
Proof. symmetry. apply not_elem_of_list_to_map. Qed.

Lemma getInstruction_out h a0 :
  ¬ (0 <= a0 < 50) →
  getInstruction h a0 = Some (mkInstruction "UNK" 0, CPUbadinst, h).
Proof.
  intros Ha. unfold getInstruction.
  apply inBounds_false in Ha. by rewrite Ha.
Qed.

Lemma getInstruction_in h a0 :
  typed h = true → 0 <= a0 < 50 →
  ∃ w, mem h !! Z.to_nat a0 = Some w ∧ index (mem h) a0 = Some w ∧
    getInstruction h a0 =
      match ops !! Z.quot w 1000 with
      | None => Some (mkInstruction "UNK" (Z.rem w 1000), CPUbadinst, h)
      | Some name =>
          if inBounds (Z.rem w 1000)
          then Some (mkInstruction name (Z.rem w 1000), CPUok, h)
          else Some (mkInstruction name (Z.rem w 1000), CPUbadaddr, h)
      end.
Proof.
  intros (Hl & Hm & _)%typed_iff Ha.
  destruct (index_Some (mem h) a0) as (w & Hi & Hw); [lia|].
  exists w. split; [done|]. split; [done|].
  assert (GoInt.is_int w) as Hint.
  { rewrite Forall_forall in Hm. apply Hm. by eapply list_elem_of_lookup_2. }
  unfold getInstruction.
  apply inBounds_true in Ha. rewrite Ha, Hi. simpl.
  assert (GoInt.quo w 1000 = Some (Z.quot w 1000)) as [= ->].
  { apply GoInt_quo_exact; [done..|]. by intros [_ ?]. }
  assert (GoInt.rem w 1000 = Some (Z.rem w 1000)) as [= ->].
  { by apply GoInt_rem_exact. }
  destruct (ops !! Z.quot w 1000); [|done].
  by destruct (inBounds (Z.rem w 1000)).
Qed.

(** C1. For every machine (as typed in Go) and every fetch address:
    outside [0, 50) -- negative, equal to the size or beyond it alike --
    [getInstruction] returns (UNK, 0) with [CPUbadinst]; inside, with [w]
    the stored word, an opcode [w / 1000] that is not among the 17 entries
    of [ops] gives (UNK, w % 1000) with [CPUbadinst], a known opcode with
    a target [w % 1000] outside [0, 50) gives (op, target) with
    [CPUbadaddr], and otherwise (op, target) with [CPUok].  In every case
    the machine after the call is the machine before it. *)
Theorem getInstruction_spec (h : Machine) (a0 : Z) :
  typed h = true →
  ((a0 < 0 ∨ a0 = memSize ∨ a0 > memSize) →
     getInstruction h a0 = Some (mkInstruction "UNK" 0, CPUbadinst, h))
  ∧ (0 <= a0 < memSize →
     ∃ w, mem h !! Z.to_nat a0 = Some w ∧
       (Z.quot w 1000 ∉ ops_entries.*1 →
          getInstruction h a0
          = Some (mkInstruction "UNK" (Z.rem w 1000), CPUbadinst, h))
       ∧ (∀ name, (Z.quot w 1000, name) ∈ ops_entries →
          ¬ (0 <= Z.rem w 1000 < memSize) →
          getInstruction h a0
          = Some (mkInstruction name (Z.rem w 1000), CPUbadaddr, h))
       ∧ (∀ name, (Z.quot w 1000, name) ∈ ops_entries →
          0 <= Z.rem w 1000 < memSize →
          getInstruction h a0
          = Some (mkInstruction name (Z.rem w 1000), CPUok, h)))
  ∧ length ops_entries = 17%nat
  ∧ NoDup ops_entries.*1
  ∧ ∃ i cs, getInstruction h a0 = Some (i, cs, h).
Proof.
  intros Ht. unfold memSize. repeat apply conj.
  - intros Ha. apply getInstruction_out. lia.
  - intros Ha. destruct (getInstruction_in h a0 Ht Ha) as (w & Hw & _ & Hg).
    exists w. split; [done|]. rewrite Hg. repeat apply conj.
    + intros Ho%ops_lookup_None. by rewrite Ho.
    + intros name Ho%ops_lookup_Some Hr%inBounds_false. by rewrite Ho, Hr.
    + intros name Ho%ops_lookup_Some Hr%inBounds_true. by rewrite Ho, Hr.
  - done.
  - apply ops_keys_NoDup.
  - destruct (Z_lt_le_dec a0 0); [|destruct (Z_lt_le_dec a0 50)].
    + rewrite getInstruction_out by lia. eauto.
    + destruct (getInstruction_in h a0 Ht) as (w & _ & _ & Hg); [lia|].
      rewrite Hg. destruct (ops !! Z.quot w 1000);
        [destruct (inBounds (Z.rem w 1000))|]; eauto.
    + rewrite getInstruction_out by lia. eauto.
Qed.

Lemma getInstruction_spec_witness :
  typed (fixture 31049 0 0) = true
  ∧ getInstruction (fixture 31049 0 0) 0
    = Some (mkInstruction "PUT" 49, CPUok, fixture 31049 0 0).
Proof.
  split; [reflexivity|].
  destruct (getInstruction_spec (fixture 31049 0 0) 0 eq_refl)
    as (_ & Hin & _).
  destruct Hin as (w & Hw & _ & _ & Hok); [done|].
  vm_compute in Hw. injection Hw as <-.
  apply (Hok "PUT"); [|done].
  apply (bool_decide_unpack _). by vm_compute.
Defined.

(** C7, as the code has it.  A word whose opcode digits are 32 decodes to
    (UNK, w % 1000) with [CPUbadinst]: the target digits are reported, and
    the address of the result is 0 only for the word 32000. *)
Theorem getInstruction_opcode_32 (h : Machine) (a0 w : Z) :
  typed h = true → 0 <= a0 < memSize →
  mem h !! Z.to_nat a0 = Some w → Z.quot w 1000 = 32 →
  getInstruction h a0
  = Some (mkInstruction "UNK" (Z.rem w 1000), CPUbadinst, h)
  ∧ Z.rem w 1000 = w - 32000
  ∧ (Z.rem w 1000 = 0 ↔ w = 32000).
Proof.
  intros Ht Ha Hw Hq.
  destruct (getInstruction_in h a0 Ht Ha) as (w' & Hw' & _ & Hg).
  assert (w' = w) as -> by congruence.
  rewrite Hg, Hq.
  pose proof (Z.quot_rem' w 1000) as Hqr. rewrite Hq in Hqr.
  split; [done|]. lia.
Qed.

Lemma getInstruction_opcode_32_witness :
  getInstruction (fixture 32000 0 0) 0
  = Some (mkInstruction "UNK" 0, CPUbadinst, fixture 32000 0 0).
Proof.
  apply (getInstruction_opcode_32 (fixture 32000 0 0) 0 32000); done.
Defined.

(** C7, as the spec words it, fails: the word 32005 at address 0 decodes to
    (UNK, 5), not to (UNK, 0). *)
Lemma getInstruction_opcode_32_keeps_target :
  Z.quot 32005 1000 = 32
  ∧ getInstruction (fixture 32005 0 0) 0
    = Some (mkInstruction "UNK" 5, CPUbadinst, fixture 32005 0 0)
  ∧ ¬ (∀ (h : Machine) (a0 w : Z),
         typed h = true → 0 <= a0 < memSize →
         mem h !! Z.to_nat a0 = Some w → Z.quot w 1000 = 32 →
         getInstruction h a0 = Some (mkInstruction "UNK" 0, CPUbadinst, h)).
Proof.
  split; [done|]. split; [by vm_compute|].
  intros Hall.
  specialize (Hall (fixture 32005 0 0) 0 32005 eq_refl ltac:(done) eq_refl eq_refl).
  vm_compute in Hall. discriminate Hall.
Qed.

(** ** One step *)

Lemma getInstruction_total h a0 :
  typed h = true →
  ∃ i cs, getInstruction h a0 = Some (i, cs, h)
    ∧ (cs = CPUok → 0 <= addr i < 50)
    ∧ (cs ≠ CPUok → cs = CPUbadinst ∨ cs = CPUbadaddr).
Proof.
  intros Ht.
  assert (∀ i, getInstruction h a0 = Some (i, CPUbadinst, h) →
    ∃ i cs, getInstruction h a0 = Some (i, cs, h)
      ∧ (cs = CPUok → 0 <= addr i < 50)
      ∧ (cs ≠ CPUok → cs = CPUbadinst ∨ cs = CPUbadaddr)) as Hbadinst.
  { intros i Hg. exists i, CPUbadinst. split; [done|]. split; [done|auto]. }
  destruct (Z_lt_le_dec a0 0); [|destruct (Z_lt_le_dec a0 50)].
  - eapply Hbadinst, getInstruction_out. lia.
  - destruct (getInstruction_in h a0 Ht) as (w & _ & _ & Hg); [lia|].
    destruct (ops !! Z.quot w 1000) as [name|].
    + destruct (inBounds (Z.rem w 1000)) eqn:Hb.
      * apply inBounds_true in Hb.
        eexists _, CPUok. split; [exact Hg|]. split; [done|]. by intros [].
      * eexists _, CPUbadaddr. split; [exact Hg|]. split; [done|auto].
    + by eapply Hbadinst.
  - eapply Hbadinst, getInstruction_out. lia.
Qed.

Section Setters.

Context (h : Machine).

Lemma typed_set_pc v :
  typed h = true → GoInt.is_int v → typed (set_pc h v) = true.
Proof. rewrite !typed_iff. simpl. tauto. Qed.

Lemma typed_set_ac v :
  typed h = true → GoInt.is_int v → typed (set_ac h v) = true.
Proof. rewrite !typed_iff. simpl. tauto. Qed.

Lemma typed_set_mq v :
  typed h = true → GoInt.is_int v → typed (set_mq h v) = true.
Proof. rewrite !typed_iff. simpl. tauto. Qed.

Lemma typed_set_state s : typed h = true → typed (set_state h s) = true.
Proof. done. Qed.

Lemma typed_set_mem m :
  typed h = true → length m = 50%nat → Forall GoInt.is_int m →
  typed (set_mem h m) = true.
Proof. rewrite !typed_iff. simpl. tauto. Qed.

Lemma bounded_set_pc v : bounded (set_pc h v) = bounded h.
Proof. done. Qed.

Lemma bounded_set_state s : bounded (set_state h s) = bounded h.
Proof. done. Qed.

Lemma bounded_set_ac v :
  bounded h = true → legal v = true → bounded (set_ac h v) = true.
Proof. rewrite !bounded_iff. simpl. tauto. Qed.

Lemma bounded_set_mq v :
  bounded h = true → legal v = true → bounded (set_mq h v) = true.
Proof. rewrite !bounded_iff. simpl. tauto. Qed.

Lemma bounded_set_mem m :
  bounded h = true → length m = 50%nat →
  Forall (λ x, legal x = true) m → bounded (set_mem h m) = true.
Proof. rewrite !bounded_iff. simpl. tauto. Qed.

End Setters.

Lemma legal_quot a b :
  legal a = true → b ≠ 0 → legal (GoInt.wrap (Z.quot a b)) = true.
Proof.
  intros Ha Hb. pose proof (quot_bound a b Hb).
  rewrite wrap_small.
  - apply legal_true. apply legal_true in Ha. lia.
  - apply legal_is_int, legal_true. apply legal_true in Ha. lia.
Qed.

Lemma legal_rem a b :
  legal a = true → b ≠ 0 → legal (GoInt.wrap (Z.rem a b)) = true.
Proof.
  intros Ha Hb. destruct (rem_between a b Hb) as [Hp Hn].
  assert (legal (Z.rem a b) = true) as Hr.
  { apply legal_true. apply legal_true in Ha.
    destruct (Z_lt_le_dec a 0);
      [specialize (Hn ltac:(lia))|specialize (Hp ltac:(lia))]; lia. }
  by rewrite wrap_small by by apply legal_is_int.
Qed.

Lemma kept_refl h : kept h h.
Proof. by split. Qed.

Section Dispatch.

Context (h : Machine) (i : Instruction) (inp : Z).
Context (Hlen : length (mem h) = 50%nat) (Haddr : 0 <= addr i < 50).

Lemma cell : ∃ v, index (mem h) (addr i) = Some v ∧ v ∈ mem h.
Proof.
  destruct (index_Some (mem h) (addr i)) as (v & Hv & Hl); [lia|].
  exists v. split; [done|]. by eapply list_elem_of_lookup_2.
Qed.

Lemma cell_store v :
  store (mem h) (addr i) v = Some (<[Z.to_nat (addr i) := v]> (mem h)).
Proof. apply store_Some. lia. Qed.

Lemma kept_jump (b : bool) :
  kept h (if b then set_pc h (addr i) else h).
Proof.
  destruct b; [|apply kept_refl]. split; try done.
  intros Ht. apply typed_set_pc; [done|].
  unfold GoInt.is_int, GoInt.min_int, GoInt.max_int. lia.
Qed.

Lemma kept_goto : kept h (set_pc h (addr i)).
Proof. apply (kept_jump true). Qed.

Lemma kept_store v :
  (typed h = true → GoInt.is_int v) → (bounded h = true → legal v = true) →
  kept h (set_mem h (<[Z.to_nat (addr i) := v]> (mem h))).
Proof.
  intros Hv Hb. split; try done.
  - intros Ht. apply typed_set_mem; [done|by rewrite length_insert|].
    apply Forall_insert; [|by apply Hv].
    by apply typed_iff in Ht as (_ & ? & _).
  - intros Hbd. apply bounded_set_mem; [done|by rewrite length_insert|].
    apply Forall_insert; [|by apply Hb].
    by apply bounded_iff in Hbd as (_ & ? & _).
Qed.

Lemma kept_ac v :
  (typed h = true → GoInt.is_int v) → (bounded h = true → legal v = true) →
  kept h (set_ac h v).
Proof.
  intros Hv Hb. split; try done.
  - intros Ht. apply typed_set_ac; auto.
  - intros Hbd. apply bounded_set_ac; auto.
Qed.

Lemma kept_mq v :
  (typed h = true → GoInt.is_int v) → (bounded h = true → legal v = true) →
  kept h (set_mq h v).
Proof.
  intros Hv Hb. split; try done.
  - intros Ht. apply typed_set_mq; auto.
  - intros Hbd. apply bounded_set_mq; auto.
Qed.

Lemma kept_fault s : s ≠ CPUok → kept h (set_state h s).
Proof. intros Hs. by split. Qed.

Lemma cell_typed v : v ∈ mem h → typed h = true → GoInt.is_int v.
Proof.
  intros Hv (_ & Hm & _)%typed_iff. rewrite Forall_forall in Hm. auto.
Qed.

Lemma cell_legal v : v ∈ mem h → bounded h = true → legal v = true.
Proof.
  intros Hv (_ & Hm & _)%bounded_iff. rewrite Forall_forall in Hm. auto.
Qed.

End Dispatch.

Lemma kept_trans h1 h2 h3 : kept h1 h2 → kept h2 h3 → kept h1 h3.
Proof.
  intros [] []. split; auto. congruence.
Qed.

Lemma typed_ac h : typed h = true → GoInt.is_int (ac h).
Proof. by intros (_ & _ & _ & ? & _)%typed_iff. Qed.

Lemma typed_mq h : typed h = true → GoInt.is_int (mq h).
Proof. by intros (_ & _ & _ & _ & ?)%typed_iff. Qed.

Lemma bounded_ac h : bounded h = true → legal (ac h) = true.
Proof. by intros (_ & _ & ? & _)%bounded_iff. Qed.

Lemma bounded_mq h : bounded h = true → legal (mq h) = true.
Proof. by intros (_ & _ & _ & ?)%bounded_iff. Qed.

Lemma capped x : GoInt.is_int (boundsCap x).
Proof. apply legal_is_int, boundsCap_legal. Qed.

#[local] Hint Resolve kept_refl kept_jump kept_goto kept_store kept_ac kept_mq
  kept_fault cell_typed cell_legal typed_ac typed_mq bounded_ac bounded_mq
  boundsCap_legal capped wrap_is_int : hypo.

Lemma dispatch_kept h i inp :
  length (mem h) = 50%nat → 0 <= addr i < 50 →
  ∃ h' evs, dispatch h i inp = Some (h', evs) ∧ kept h h'.
Proof.
  intros Hlen Haddr.
  destruct (cell h i Hlen Haddr) as (v & Hv & Hin).
  pose proof (cell_store h i Hlen Haddr) as Hst.
  dispatch_cases i; rewrite ?Hv, ?Hst; simpl;
    try (eexists _, _; split; [reflexivity|]; eauto 6 with hypo; fail).
  - destruct (Z.eqb_spec v 0) as [->|Hnz].
    + eexists _, _; split; [reflexivity|]. by apply kept_fault.
    + apply Z.eqb_neq in Hnz as Hz.
      unfold GoInt.rem. rewrite Hz. simpl. rewrite Hv. simpl.
      unfold GoInt.quo. rewrite Hz. simpl.
      eexists _, _; split; [reflexivity|].
      apply (kept_trans _ (set_ac h (GoInt.wrap (Z.rem (mq h) v)))).
      * apply kept_ac; [auto with hypo|].
        intros Hb. apply legal_rem; auto with hypo.
      * apply kept_mq; [auto with hypo|].
        intros Hb. apply legal_quot; [|done].
        apply bounded_iff in Hb. simpl in Hb. tauto.
Qed.

Lemma Step_kept h inp :
  typed h = true → ∃ h' evs, Step h inp = Some (h', evs) ∧ kept h h'.
Proof.
  intros Ht. unfold Step.
  destruct (getInstruction_total h (pc h) Ht) as (i & cs & -> & Hok & Hbad).
  simpl. destruct (decide (cs ≠ CPUok)) as [Hcs|Hcs].
  - eexists _, _; split; [reflexivity|]. by apply kept_fault.
  - assert (cs = CPUok) as -> by (destruct (decide (cs = CPUok)); tauto).
    destruct (dispatch_kept (set_pc h (GoInt.add (pc h) 1)) i inp)
      as (h' & evs & -> & Hk); [by apply typed_iff in Ht as (? & _)|auto|].
    simpl. eexists _, _; split; [reflexivity|].
    eapply kept_trans; [|exact Hk].
    split; try done. intros _. apply typed_set_pc; [done|].
    apply wrap_is_int.
Qed.

Lemma Step_fault h inp i cs :
  getInstruction h (pc h) = Some (i, cs, h) → cs ≠ CPUok →
  Step h inp = Some (set_state h cs, []).
Proof.
  intros Hg Hcs. unfold Step. rewrite Hg. simpl.
  by destruct (decide (cs ≠ CPUok)).
Qed.

Lemma Step_run h inp i :
  getInstruction h (pc h) = Some (i, CPUok, h) →
  Step h inp =
    '(h2, evs) ← dispatch (set_pc h (GoInt.add (pc h) 1)) i inp;
    Some (h2, traced h i ++ evs).
Proof.
  intros Hg. unfold Step. rewrite Hg. simpl.
  by destruct (decide (CPUok ≠ CPUok)).
Qed.

(** C5. When the word at PC decodes to a verdict other than [CPUok] --
    which is then [CPUbadinst] or [CPUbadaddr] -- [Step] stores the verdict
    in [state] and does nothing else: PC, AC, MQ and the memory are what
    they were, and no hook is called (nor is anything traced). *)
Theorem Step_decode_fault (h : Machine) (inp : Z) :
  typed h = true →
  ∃ i cs, getInstruction h (pc h) = Some (i, cs, h) ∧
    (cs ≠ CPUok →
       (cs = CPUbadinst ∨ cs = CPUbadaddr) ∧
       ∃ h', Step h inp = Some (h', []) ∧
         state h' = cs ∧ pc h' = pc h ∧ ac h' = ac h ∧ mq h' = mq h ∧
         mem h' = mem h ∧ trace h' = trace h).
Proof.
  intros Ht.
  destruct (getInstruction_total h (pc h) Ht) as (i & cs & Hg & _ & Hbad).
  exists i, cs. split; [done|]. intros Hcs. split; [auto|].
  exists (set_state h cs). by rewrite (Step_fault h inp i cs).
Qed.

Lemma Step_decode_fault_witness :
  Step (fixture 32005 0 7) 0
  = Some (set_state (fixture 32005 0 7) CPUbadinst, []).
Proof.
  destruct (Step_decode_fault (fixture 32005 0 7) 0 eq_refl)
    as (i & cs & Hg & Hf).
  vm_compute in Hg. injection Hg as <- <-.
  destruct Hf as (_ & h' & Hs & Hst & Hpc & Hac & Hmq & Hmem & Htr); [done|].
  rewrite Hs. f_equal. f_equal. destruct h'. simpl in *. by subst.
Defined.

Section Div.

Context (h : Machine) (inp a : Z).
Context (Ht : typed h = true).
Context (Hg : getInstruction h (pc h)
              = Some (mkInstruction "DIV" a, CPUok, h)).

Lemma div_target : 0 <= a < 50.
Proof using Ht Hg.
  destruct (getInstruction_total h (pc h) Ht) as (i & cs & Hg' & Hok & _).
  rewrite Hg in Hg'. injection Hg' as <- <-. by apply Hok.
Qed.

Lemma div_cell m :
  mem h !! Z.to_nat a = Some m → index (mem h) a = Some m.
Proof using Ht Hg.
  intros Hm. pose proof div_target as Ha.
  apply typed_iff in Ht as (Hl & _).
  destruct (index_Some (mem h) a) as (v & Hv & Hv'); [lia|].
  congruence.
Qed.

Lemma Step_div_zero :
  mem h !! Z.to_nat a = Some 0 →
  Step h inp
  = Some (set_state (set_pc h (GoInt.add (pc h) 1)) CPUdivzero,
          traced h (mkInstruction "DIV" a)).
Proof using Ht Hg.
  intros Hm%div_cell. rewrite (Step_run _ _ _ Hg).
  unfold dispatch, op_is. simpl. rewrite Hm. simpl.
  by rewrite app_nil_r.
Qed.

Lemma Step_div_nonzero m :
  mem h !! Z.to_nat a = Some m → m ≠ 0 →
  Step h inp
  = Some (set_mq (set_ac (set_pc h (GoInt.add (pc h) 1))
                    (GoInt.wrap (Z.rem (mq h) m)))
            (GoInt.wrap (Z.quot (mq h) m)),
          traced h (mkInstruction "DIV" a)).
Proof using Ht Hg.
  intros Hm%div_cell Hnz%Z.eqb_neq. rewrite (Step_run _ _ _ Hg).
  unfold dispatch, op_is. simpl. rewrite Hm. simpl. rewrite Hnz.
  unfold GoInt.rem, GoInt.quo. rewrite Hnz. simpl.
  by rewrite app_nil_r.
Qed.

End Div.

(** C2. When the word at PC is a valid DIV and the cell it names holds 0,
    [Step] sets [state] to [CPUdivzero] and returns at once: AC and MQ
    (and the memory) are exactly what they were, and no hook is called.
    The program counter has already been advanced by then. *)
Theorem Step_DIV_by_zero (h : Machine) (inp a : Z) :
  typed h = true →
  getInstruction h (pc h) = Some (mkInstruction "DIV" a, CPUok, h) →
  mem h !! Z.to_nat a = Some 0 →
  ∃ h' evs, Step h inp = Some (h', evs) ∧
    state h' = CPUdivzero ∧ ac h' = ac h ∧ mq h' = mq h ∧ mem h' = mem h ∧
    pc h' = GoInt.add (pc h) 1 ∧
    (∀ v, (EvInput v ∉ evs) ∧ (EvOutput v ∉ evs)).
Proof.
  intros Ht Hg Hm. rewrite (Step_div_zero h inp a Ht Hg Hm).
  eexists _, _. split; [reflexivity|]. simpl. repeat split; try done.
  all: unfold traced; destruct (trace h); intros Hin;
    repeat (apply elem_of_cons in Hin as [[=]|Hin]); by apply elem_of_nil in Hin.
Qed.

Lemma Step_DIV_by_zero_witness :
  ∃ h' evs, Step (fixture 23001 0 12) 0 = Some (h', evs) ∧
    state h' = CPUdivzero ∧ ac h' = 0 ∧ mq h' = 12 ∧
    mem h' = mem (fixture 23001 0 12) ∧ pc h' = 1 ∧
    (∀ v, (EvInput v ∉ evs) ∧ (EvOutput v ∉ evs)).
Proof.
  exact (Step_DIV_by_zero (fixture 23001 0 12) 0 1 eq_refl eq_refl eq_refl).
Defined.

(** C6. When the word at PC is a valid DIV and the cell it names holds
    [m ≠ 0], [Step] sets AC to the remainder [MQ % m] and MQ to the
    quotient [MQ / m] of Go's truncated division, both taken from the MQ of
    before the step: the remainder is [Z.rem], it is smaller than the
    divisor and has the sign of the dividend; the quotient is [Z.quot],
    reduced to an [int] -- which changes it for no dividend but the least
    [int] divided by -1, a value MQ never has once the legal range holds. *)
Theorem Step_DIV_divides (h : Machine) (inp a m : Z) :
  typed h = true →
  getInstruction h (pc h) = Some (mkInstruction "DIV" a, CPUok, h) →
  mem h !! Z.to_nat a = Some m → m ≠ 0 →
  ∃ h' evs, Step h inp = Some (h', evs) ∧
    GoInt.rem (mq h) m = Some (ac h') ∧
    GoInt.quo (mq h) m = Some (mq h') ∧
    ac h' = Z.rem (mq h) m ∧
    Z.abs (ac h') < Z.abs m ∧
    (0 <= mq h → 0 <= ac h') ∧ (mq h <= 0 → ac h' <= 0) ∧
    (¬ (mq h = GoInt.min_int ∧ m = -1) →
       mq h' = Z.quot (mq h) m ∧ mq h = m * mq h' + ac h') ∧
    (legal (mq h) = true → mq h' = Z.quot (mq h) m) ∧
    state h' = state h ∧ mem h' = mem h.
Proof.
  intros Ht Hg Hm Hnz. rewrite (Step_div_nonzero h inp a Ht Hg m Hm Hnz).
  eexists _, _. split; [reflexivity|]. simpl.
  pose proof (typed_mq h Ht) as Hq.
  pose proof (GoInt_rem_exact (mq h) m Hq Hnz) as Hrem.
  assert (GoInt.wrap (Z.rem (mq h) m) = Z.rem (mq h) m) as Hr.
  { unfold GoInt.rem in Hrem. apply Z.eqb_neq in Hnz. rewrite Hnz in Hrem.
    congruence. }
  assert (¬ (mq h = GoInt.min_int ∧ m = -1) →
          GoInt.wrap (Z.quot (mq h) m) = Z.quot (mq h) m) as Hquo.
  { intros Hov. pose proof (GoInt_quo_exact (mq h) m Hq Hnz Hov) as Hquo.
    unfold GoInt.quo in Hquo. apply Z.eqb_neq in Hnz. rewrite Hnz in Hquo.
    congruence. }
  destruct (rem_between (mq h) m Hnz) as [Hpos Hneg].
  rewrite Hr. repeat apply conj.
  - exact Hrem.
  - unfold GoInt.quo. apply Z.eqb_neq in Hnz. by rewrite Hnz.
  - done.
  - by apply rem_abs_bound.
  - intros Hp. by apply Hpos.
  - intros Hn. by apply Hneg.
  - intros Hov. rewrite (Hquo Hov). split; [done|]. apply Z.quot_rem'.
  - intros Hl%legal_true. apply Hquo. intros [Hmin _].
    rewrite Hmin in Hl. unfold GoInt.min_int in Hl. lia.
  - done.
  - done.
Qed.

Lemma Step_DIV_divides_witness :
  (∃ h' evs, Step (fixture 23001 9 12) 0 = Some (h', evs)
     ∧ mq h' = 1 ∧ ac h' = 3)
  ∧ (∃ h' evs, Step (fixture 23001 9 (-12)) 0 = Some (h', evs)
     ∧ mq h' = -1 ∧ ac h' = -3).
Proof.
  split.
  - destruct (Step_DIV_divides (fixture 23001 9 12) 0 1 9
                eq_refl eq_refl eq_refl ltac:(done))
      as (h' & evs & Hs & _ & _ & Hac & _ & _ & _ & _ & Hmq & _).
    exists h', evs. split; [done|]. split; [by apply Hmq|done].
  - destruct (Step_DIV_divides (fixture 23001 9 (-12)) 0 1 9
                eq_refl eq_refl eq_refl ltac:(done))
      as (h' & evs & Hs & _ & _ & Hac & _ & _ & _ & _ & Hmq & _).
    exists h', evs. split; [done|]. split; [by apply Hmq|done].
Defined.

(** ** The pattern of the loader *)


Section Matching.

Import Regexp.

Context (w : list ascii).

Lemma slice_nil i : slice w i i = [].
Proof. unfold slice. by rewrite Nat.sub_diag. Qed.

Lemma slice_cons i k b :
  w !! i = Some b → (i < k)%nat → slice w i k = b :: slice w (S i) k.
Proof.
  intros Hb Hik. unfold slice. rewrite (drop_S _ _ _ Hb).
  replace (k - i)%nat with (S (k - S i)) by lia. done.
Qed.

Lemma slice_app i j k :
  (i <= j)%nat → (j <= k)%nat → slice w i k = slice w i j ++ slice w j k.
Proof.
  intros Hij Hjk. unfold slice.
  replace (k - i)%nat with ((j - i) + (k - j))%nat by lia.
  rewrite <- take_take_drop, drop_drop. do 3 f_equal. lia.
Qed.

(** The search finds only what matches. *)
Lemma run_sound r : ∀ i c k res,
  run w r i c k = Some res →
  ∃ j c', matches w r i c j c' ∧ k j c' = Some res.
Proof.
  induction r as [p|r1 IH1 r2 IH2|r IH|n r IH| |]; intros i c k res Hrun.
  - simpl in Hrun. unfold one in Hrun.
    destruct (w !! i) as [b|] eqn:Hb; [|done].
    destruct (p b) eqn:Hp; [|done].
    exists (S i), c. split; [by econstructor|done].
  - simpl in Hrun.
    apply IH1 in Hrun as (j & c1 & Hm1 & Hrun).
    apply IH2 in Hrun as (j' & c2 & Hm2 & Hk).
    exists j', c2. split; [by econstructor|done].
  - change (run w (Star r) i c k)
      with (star_loop (run w r) k (S (length w)) i c) in Hrun.
    revert i c Hrun. generalize (S (length w)).
    intros fuel. induction fuel as [|fuel IHf]; intros i c Hrun;
      simpl in Hrun.
    + exists i, c. split; [constructor|done].
    + destruct (run w r i c _) as [res0|] eqn:Hstep.
      * injection Hrun as ->.
        apply IH in Hstep as (j & c1 & Hm & Hrest).
        destruct (i <? j)%nat; [|done].
        apply IHf in Hrest as (j' & c2 & Hs & Hk).
        exists j', c2. split; [by econstructor|done].
      * exists i, c. split; [constructor|done].
  - simpl in Hrun.
    apply IH in Hrun as (j & c1 & Hm & Hk).
    eexists j, _. split; [by econstructor|done].
  - simpl in Hrun. destruct (Nat.eqb_spec i 0) as [->|]; [|done].
    exists O, c. split; [constructor|done].
  - simpl in Hrun. destruct (Nat.eqb_spec i (length w)) as [->|]; [|done].
    exists (length w), c. split; [constructor|done].
Qed.

Lemma find_from_sound r n : ∀ i0 i j c,
  find_from w r n i0 = Some (i, j, c) → matches w r i no_caps j c.
Proof.
  induction n as [|n IH]; intros i0 i j c Hf; simpl in Hf.
  - destruct (run w r i0 no_caps _) as [[j' c']|] eqn:Hrun; [|done].
    injection Hf as <- <- <-.
    apply run_sound in Hrun as (j & c & Hm & [= <- <-]). done.
  - destruct (run w r i0 no_caps _) as [[j' c']|] eqn:Hrun.
    + injection Hf as <- <- <-.
      apply run_sound in Hrun as (j & c & Hm & [= <- <-]). done.
    + by apply IH in Hf.
Qed.

Lemma matches_le r i c j c' : matches w r i c j c' → (i <= j)%nat.
Proof. induction 1; lia. Qed.

(** A pattern leaves the groups alone that it does not contain. *)
Lemma matches_other_groups r i c j c' n :
  matches w r i c j c' → sets_group r n = false → c' n = c n.
Proof.
  induction 1 as [| ? ? ? ? ? ? ? ? _ IH1 _ IH2| | ? ? ? ? ? ? ? _ IH1 _ IH2
                  | k ? ? ? ? ? _ IH| |]; simpl; intros Hn; try done.
  - apply orb_false_iff in Hn as [? ?]. rewrite IH2, IH1; done.
  - rewrite IH2, IH1; done.
  - apply orb_false_iff in Hn as [Hk ?]. unfold set_cap.
    rewrite Hk. auto.
Qed.

(** What a starred class matches: a run of characters of the class. *)
Lemma matches_star_class p i c j c' :
  matches w (Star (Class p)) i c j c' →
  c' = c ∧ (i <= j)%nat ∧ Forall (λ x, p x = true) (slice w i j).
Proof.
  intros Hm. remember (Star (Class p)) as r eqn:Hr.
  induction Hm as [| | |r0 i j k c c1 c2 Hm1 _ Hm2 IH| | |];
    try discriminate.
  - rewrite slice_nil. by repeat split.
  - injection Hr as ->. invert Hm1.
    destruct (IH eq_refl) as (-> & Hle & Hall).
    split; [done|]. split; [lia|].
    rewrite (slice_cons i k b) by (done || lia). by constructor.
Qed.

Lemma matches_plus_class p i c j c' :
  matches w (Plus (Class p)) i c j c' →
  c' = c ∧ (i < j)%nat ∧ slice w i j ≠ []
  ∧ Forall (λ x, p x = true) (slice w i j).
Proof.
  unfold Plus. intros Hm. invert Hm.
  match goal with H : matches _ (Class _) _ _ _ _ |- _ => invert H end.
  match goal with H : matches _ (Star _) _ _ _ _ |- _ =>
    apply matches_star_class in H as (-> & Hle & Hall) end.
  split; [done|]. split; [lia|].
  rewrite (slice_cons i j b) by (done || lia). split; [done|].
  by constructor.
Qed.

End Matching.

Lemma all_dashes (l : list ascii) :
  Forall (λ x, Ascii.eqb "-" x = true) l → l = replicate (length l) "-"%char.
Proof.
  induction 1 as [|x l Hx _ IH]; [done|]. simpl.
  apply Ascii.eqb_eq in Hx as <-. by rewrite <- IH.
Qed.

(** What the pattern of the loader captures: four strings, the second
    (group 1) a string of digits, the third (group 2) any number of dashes
    followed by a string of digits. *)
Lemma re_submatch w m :
  Regexp.FindStringSubmatch re w = Some m →
  ∃ whole a tok rest n ds,
    m = [whole; a; tok; rest]
    ∧ a ≠ [] ∧ Forall (λ x, Regexp.digit x = true) a
    ∧ tok = replicate n "-"%char ++ ds
    ∧ ds ≠ [] ∧ Forall (λ x, Regexp.digit x = true) ds.
Proof.
  unfold Regexp.FindStringSubmatch.
  destruct (Regexp.find_from w re (length w) 0) as [[[i j] c]|] eqn:Hf; [|done].
  intros [= <-]. apply find_from_sound in Hf.
  change (Regexp.groups re) with 3%nat. simpl.
  unfold re, Regexp.Lit in Hf.
  invert Hf. repeat match goal with
  | H : Regexp.matches _ (Regexp.Cat (Regexp.Group _ _) _) _ _ _ _ |- _ => invert H
  | H : Regexp.matches _ (Regexp.Cat (Regexp.Class _) _) _ _ _ _ |- _ => invert H
  | H : Regexp.matches _ (Regexp.Cat (Regexp.Star _) _) _ _ _ _ |- _ => invert H
  | H : Regexp.matches _ (Regexp.Group _ _) _ _ _ _ |- _ => invert H
  | H : Regexp.matches _ (Regexp.Class _) _ _ _ _ |- _ => invert H
  | H : Regexp.matches _ Regexp.Bol _ _ _ _ |- _ => invert H
  | H : Regexp.matches _ Regexp.Eol _ _ _ _ |- _ => invert H
  end.
  repeat match goal with
  | H : Regexp.matches _ (Regexp.Plus _) _ _ _ _ |- _ =>
      apply matches_plus_class in H as (-> & ? & ? & ?)
  | H : Regexp.matches _ (Regexp.Star (Regexp.Class _)) _ _ _ _ |- _ =>
      apply matches_star_class in H as (-> & ? & ?)
  end.
  match goal with
  | H : Regexp.matches _ (Regexp.Star (Regexp.Group 3 _)) _ _ _ _ |- _ =>
      pose proof (matches_other_groups _ _ _ _ _ _ 1%nat H eq_refl) as Hc1;
      pose proof (matches_other_groups _ _ _ _ _ _ 2%nat H eq_refl) as Hc2
  end.
  rewrite Hc1, Hc2. unfold Regexp.set_cap. simpl.
  eexists _, _, _, _, _, _. split; [reflexivity|].
  split; [done|]. split; [done|].
  match goal with
  | Hd : Forall (λ x, Ascii.eqb "-" x = true) (Regexp.slice w ?p ?p') |- _ =>
      rewrite (slice_app w p p') by lia; rewrite (all_dashes _ Hd) at 1
  end.
  split; [reflexivity|]. split; eassumption.
Qed.

(** ** [strconv.Atoi] on the tokens of the pattern *)

Section Tokens.

Import strconv.

Lemma digits_val_digits ds : ∀ acc,
  Forall (λ x, Regexp.digit x = true) ds →
  digits_val acc ds = Some (foldl decimal_step acc ds).
Proof.
  induction ds as [|d ds IH]; intros acc Hds; [done|].
  apply Forall_cons in Hds as [Hd Hds]. simpl.
  unfold digit_val. rewrite Hd. simpl. by apply IH.
Qed.

Lemma foldl_step_nonneg ds : ∀ acc,
  Forall (λ x, Regexp.digit x = true) ds → 0 <= acc →
  0 <= foldl decimal_step acc ds.
Proof.
  induction ds as [|d ds IH]; intros acc Hds Hacc; [done|].
  apply Forall_cons in Hds as [Hd Hds]. simpl. apply IH; [done|].
  unfold decimal_step. unfold Regexp.digit in Hd.
  apply andb_true_iff in Hd as [Hlo%Nat.leb_le _]. lia.
Qed.

Lemma decimal_nonneg ds :
  Forall (λ x, Regexp.digit x = true) ds → 0 <= decimal ds.
Proof. intros. by apply foldl_step_nonneg. Qed.

Lemma sign_digit d ds :
  Regexp.digit d = true → sign (d :: ds) = (false, d :: ds).
Proof.
  intros Hd. unfold sign.
  destruct (Ascii.eqb_spec d "-") as [->|_]; [done|].
  by destruct (Ascii.eqb_spec d "+") as [->|_].
Qed.

(** A token of the pattern parses unless it has two dashes or more, or
    denotes a number outside the range of [int]. *)
Lemma Atoi_token n ds :
  ds ≠ [] → Forall (λ x, Regexp.digit x = true) ds →
  Atoi (replicate n "-"%char ++ ds) =
    match n with
    | O => if decimal ds <=? GoInt.max_int then Some (decimal ds) else None
    | S O => if decimal ds <=? 2 ^ 63 then Some (- decimal ds) else None
    | _ => None
    end.
Proof.
  intros Hne Hds. pose proof (decimal_nonneg ds Hds) as Hpos.
  destruct ds as [|d ds]; [done|].
  assert (Regexp.digit d = true) as Hd by (by inversion Hds).
  destruct n as [|[|n]]; simpl replicate; simpl app; unfold Atoi.
  - rewrite sign_digit by done.
    rewrite digits_val_digits by done. simpl.
    change (foldl decimal_step (decimal_step 0 d) ds) with (decimal (d :: ds)).
    unfold GoInt.min_int, GoInt.max_int in *.
    destruct (Z.leb_spec (- 2 ^ 63) (decimal (d :: ds))); [|lia].
    by destruct (Z.leb_spec (decimal (d :: ds)) (2 ^ 63 - 1)).
  - simpl sign. cbv iota beta.
    rewrite digits_val_digits by done. simpl.
    change (foldl decimal_step (decimal_step 0 d) ds) with (decimal (d :: ds)).
    unfold GoInt.min_int, GoInt.max_int in *.
    destruct (Z.leb_spec (decimal (d :: ds)) (2 ^ 63)),
      (Z.leb_spec (- 2 ^ 63) (- decimal (d :: ds))); try lia; simpl; [|done].
    by destruct (Z.leb_spec (- decimal (d :: ds)) (2 ^ 63 - 1)); [|lia].
  - done.
Qed.

End Tokens.

(** ** The loader *)

Lemma set_mem_set_mem h m1 m2 : set_mem (set_mem h m1) m2 = set_mem h m2.
Proof. done. Qed.

Lemma set_mem_same h : set_mem h (mem h) = h.
Proof. by destruct h. Qed.

Lemma loadLine_parse h line :
  length (mem h) = 50%nat →
  loadLine h line =
    Some match parseLine line with
         | inl e => inl e
         | inr (a, v) =>
             inr (set_mem h (<[Z.to_nat a := boundsCap v]> (mem h)))
         end.
Proof.
  intros Hlen. unfold loadLine, parseLine.
  destruct (Regexp.FindStringSubmatch re line) as [m|] eqn:Hm; [|done].
  apply re_submatch in Hm
    as (whole & a & tok & rest & n & ds & -> & _ & _ & _ & _ & _).
  simpl. destruct (strconv.Atoi a) as [x|]; [|done].
  destruct ((x <? 0) || (x >=? memSize)) eqn:Hx; [done|].
  destruct (strconv.Atoi tok) as [v|]; [|done].
  rewrite store_Some; [done|].
  rewrite Z.geb_leb in Hx.
  apply orb_false_iff in Hx as [?%Z.ltb_ge ?%Z.leb_gt].
  unfold memSize in *. lia.
Qed.

Lemma scanLoop_eq ls : ∀ h,
  length (mem h) = 50%nat →
  scanLoop h ls
  = Some (set_mem h (assignLines (mem h) ls), snd <$> firstFailure ls).
Proof.
  induction ls as [|line ls IH]; intros h Hlen; simpl.
  - by rewrite set_mem_same.
  - rewrite (loadLine_parse h line Hlen). simpl.
    destruct (parseLine line) as [e|[a v]].
    + by rewrite set_mem_same.
    + rewrite IH by (simpl; by rewrite length_insert).
      simpl. f_equal. f_equal. by destruct (firstFailure ls) as [[k e]|].
Qed.

Lemma firstFailure_None ls : firstFailure ls = None ↔ Forall loads ls.
Proof.
  induction ls as [|line ls IH]; simpl.
  - split; [constructor|done].
  - rewrite Forall_cons, <- IH. unfold loads.
    destruct (parseLine line) as [e|av].
    + split; [done|]. by intros [[av [=]] _].
    + destruct (firstFailure ls) as [[k e]|]; simpl; split; try done.
      * by intros [_ [=]].
      * eauto.
Qed.

Lemma firstFailure_Some ls k e :
  firstFailure ls = Some (k, e) ↔
  ∃ pre line post,
    ls = pre ++ line :: post ∧ length pre = k ∧ Forall loads pre
    ∧ parseLine line = inl e.
Proof.
  revert k. induction ls as [|line ls IH]; intros k; simpl.
  - split; [done|]. intros (pre & l & post & Hls & _). by destruct pre.
  - destruct (parseLine line) as [e'|av] eqn:Hp.
    + split.
      * intros [= <- <-]. exists [], line, ls. by repeat split.
      * intros (pre & l & post & Hls & Hk & Hpre & Hl).
        destruct pre as [|l0 pre]; simpl in *.
        -- injection Hls as <- <-. congruence.
        -- injection Hls as <- ->. apply Forall_cons in Hpre as [[av Hav] _].
           congruence.
    + split.
      * destruct (firstFailure ls) as [[k' e']|] eqn:Hf; [|done].
        simpl. intros [= <- <-].
        destruct (proj1 (IH k') eq_refl)
          as (pre & l & post & -> & Hk & Hpre & Hl).
        exists (line :: pre), l, post. simpl. repeat split; try done.
        -- by rewrite Hk.
        -- constructor; [by exists av|done].
      * intros (pre & l & post & Hls & Hk & Hpre & Hl).
        destruct pre as [|l0 pre]; simpl in *.
        -- injection Hls as <- <-. congruence.
        -- injection Hls as <- ->. apply Forall_cons in Hpre as [_ Hpre].
           destruct k as [|k]; [done|]. injection Hk as Hk.
           rewrite (proj2 (IH k)); [done|]. by exists pre, l, post.
Qed.

Lemma assignLines_stops m pre line post e : ∀ m0,
  m0 = m → Forall loads pre → parseLine line = inl e →
  assignLines m0 (pre ++ line :: post) = assignLines m0 pre.
Proof.
  revert m. induction pre as [|l pre IH]; intros m m0 -> Hpre Hl; simpl.
  - by rewrite Hl.
  - apply Forall_cons in Hpre as [[[a v] Hav] Hpre]. rewrite Hav.
    by eapply IH.
Qed.

Lemma assignLines_app m pre post :
  Forall loads pre →
  assignLines m (pre ++ post) = assignLines (assignLines m pre) post.
Proof.
  revert m. induction pre as [|l pre IH]; intros m Hpre; simpl; [done|].
  apply Forall_cons in Hpre as [[[a v] Hav] Hpre]. rewrite Hav. by apply IH.
Qed.

Lemma assignLines_legal ls : ∀ m,
  length m = 50%nat → Forall (λ x, legal x = true) m →
  length (assignLines m ls) = 50%nat
  ∧ Forall (λ x, legal x = true) (assignLines m ls).
Proof.
  induction ls as [|l ls IH]; intros m Hlen Hm; simpl; [done|].
  destruct (parseLine l) as [e|[a v]]; [done|].
  apply IH; [by rewrite length_insert|].
  apply Forall_insert; [done|]. apply boundsCap_legal.
Qed.

Lemma zeroMem_legal :
  length zeroMem = 50%nat ∧ Forall (λ x, legal x = true) zeroMem.
Proof.
  split; [done|]. apply Forall_forall. intros x Hx.
  unfold zeroMem in Hx. by apply elem_of_replicate in Hx as [-> _].
Qed.

(** The machine on which the loop of [LoadProgram] starts. *)
Lemma LoadProgram_eq h r :
  LoadProgram h r =
    let h3 := set_mem (set_state h CPUhalt) (assignLines zeroMem (lines r)) in
    match firstFailure (lines r) with
    | Some (_, e) => Some (h3, Some e)
    | None =>
        if scan_err r then Some (h3, Some loadErrBadFile)
        else Some (set_state h3 CPUok, None)
    end.
Proof.
  unfold LoadProgram. rewrite scanLoop_eq by done. simpl.
  by destruct (firstFailure (lines r)) as [[k e]|].
Qed.

Lemma scanLoop_app pre post : ∀ h,
  length (mem h) = 50%nat → Forall loads pre →
  scanLoop h (pre ++ post)
  = scanLoop (set_mem h (assignLines (mem h) pre)) post.
Proof.
  induction pre as [|l pre IH]; intros h Hlen Hpre; simpl.
  - by rewrite set_mem_same.
  - apply Forall_cons in Hpre as [[[a v] Hav] Hpre].
    rewrite (loadLine_parse h l Hlen), Hav. simpl.
    rewrite IH; [done|by simpl; rewrite length_insert|done].
Qed.

Lemma Atoi_token_None n ds :
  ds ≠ [] → Forall (λ x, Regexp.digit x = true) ds →
  strconv.Atoi (replicate n "-"%char ++ ds) = None ↔ unparsable n ds.
Proof.
  intros Hne Hds. rewrite (Atoi_token n ds Hne Hds). unfold unparsable.
  pose proof (decimal_nonneg ds Hds).
  destruct n as [|[|n]].
  - destruct (Z.leb_spec (decimal ds) GoInt.max_int) as [Hle|Hgt]; split.
    + done.
    + intros [?|[[_ ?]|[? _]]]; lia.
    + intros _. right. left. by split.
    + done.
  - destruct (Z.leb_spec (decimal ds) (2 ^ 63)) as [Hle|Hgt]; split.
    + done.
    + intros [?|[[? _]|[_ ?]]]; lia.
    + intros _. right. right. by split.
    + done.
  - split; [|done]. intros _. left. lia.
Qed.

(** C4. [LoadProgram] returns for every machine and every input.  It
    starts from the machine halted with all fifty cells zero; after each
    line that loads, the machine is still halted and its memory holds the
    assignments made so far, in the order of the lines.  At the first line
    that fails it returns that line's failure, the machine halted, the
    memory holding the (capped) assignments of the lines before it, whatever
    follows it.  When no line fails, a failure of the scanner is the
    bad-file failure with the machine halted, and only otherwise is the
    result [nil] and the state [CPUok]. *)
Theorem LoadProgram_spec (h : Machine) (r : Reader) :
  let h0 := set_mem (set_state h CPUhalt) zeroMem in
  ∃ h' e, LoadProgram h r = Some (h', e) ∧
    (∀ pre post, lines r = pre ++ post → Forall loads pre →
       ∃ hj, scanLoop h0 pre = Some (hj, None)
         ∧ scanLoop h0 (lines r) = scanLoop hj post
         ∧ state hj = CPUhalt ∧ mem hj = assignLines zeroMem pre) ∧
    (∀ pre line post err,
       lines r = pre ++ line :: post → Forall loads pre →
       parseLine line = inl err →
       e = Some err ∧ state h' = CPUhalt
       ∧ mem h' = assignLines zeroMem pre) ∧
    (Forall loads (lines r) →
       mem h' = assignLines zeroMem (lines r)
       ∧ (scan_err r = true → e = Some loadErrBadFile ∧ state h' = CPUhalt)
       ∧ (scan_err r = false → e = None ∧ state h' = CPUok)) ∧
    (Forall loads (lines r)
     ∨ ∃ pre line post err,
         lines r = pre ++ line :: post ∧ Forall loads pre
         ∧ parseLine line = inl err) ∧
    (state h' = CPUok ↔ e = None) ∧
    (state h' = CPUok → Forall loads (lines r)) ∧
    (e ≠ None → state h' = CPUhalt) ∧
    length (mem h') = 50%nat ∧ Forall (λ x, legal x = true) (mem h').
Proof.
  intros h0. rewrite LoadProgram_eq.
  destruct zeroMem_legal as [Hzl Hzb].
  destruct (assignLines_legal (lines r) zeroMem Hzl Hzb) as [Hal Hab].
  assert (∀ pre post, lines r = pre ++ post → Forall loads pre →
     ∃ hj, scanLoop h0 pre = Some (hj, None)
       ∧ scanLoop h0 (lines r) = scanLoop hj post
       ∧ state hj = CPUhalt ∧ mem hj = assignLines zeroMem pre) as Hthrough.
  { intros pre post Hls Hpre.
    exists (set_mem h0 (assignLines zeroMem pre)). repeat split.
    - rewrite scanLoop_eq by done.
      apply firstFailure_None in Hpre. by rewrite Hpre.
    - rewrite Hls. by apply scanLoop_app. }
  destruct (firstFailure (lines r)) as [[k e]|] eqn:Hf.
  - apply firstFailure_Some in Hf
      as (pre & line & post & Hls & Hk & Hpre & Hline).
    assert (¬ Forall loads (lines r)) as Hnot.
    { rewrite Hls. intros [_ [[av Hav] _]%Forall_cons]%Forall_app. congruence. }
    eexists _, _. split; [reflexivity|]. simpl.
    split; [exact Hthrough|]. repeat apply conj; try done.
    + intros pre' line' post' err Hls' Hpre' Hline'.
      assert (firstFailure (lines r) = Some (length pre', err)) as Hf'.
      { apply firstFailure_Some. by exists pre', line', post'. }
      assert (firstFailure (lines r) = Some (k, e)) as Hf''.
      { apply firstFailure_Some. by exists pre, line, post. }
      rewrite Hf' in Hf''. injection Hf'' as _ ->.
      split; [done|]. split; [done|]. rewrite Hls'.
      by eapply assignLines_stops.
    + right. by exists pre, line, post, e.
  - apply firstFailure_None in Hf as Hall.
    assert (∀ pre line post err,
       lines r = pre ++ line :: post → Forall loads pre →
       parseLine line = inl err → False) as Hno.
    { intros pre line post err Hls Hpre Hline.
      assert (firstFailure (lines r) = Some (length pre, err)) as Hf'.
      { apply firstFailure_Some. by exists pre, line, post. }
      congruence. }
    destruct (scan_err r); eexists _, _; (split; [reflexivity|]); simpl;
      (split; [exact Hthrough|]); repeat apply conj; try done;
      try (intros; exfalso; eauto; fail); auto.
Qed.

Lemma LoadProgram_spec_witness :
  ∃ h' e,
    LoadProgram NewMachine (mkReader [bytes "1: 50"; bytes "x"; bytes "0: 60"]
                              false)
    = Some (h', e)
    ∧ e = Some loadErrBadLine ∧ state h' = CPUhalt
    ∧ mem h' = <[1%nat := 50]> zeroMem.
Proof.
  destruct (LoadProgram_spec NewMachine
              (mkReader [bytes "1: 50"; bytes "x"; bytes "0: 60"] false))
    as (h' & e & Hl & _ & Hfail & _).
  exists h', e. split; [done|].
  apply (Hfail [bytes "1: 50"] (bytes "x") [bytes "0: 60"] loadErrBadLine).
  - done.
  - constructor; [|constructor]. exists (1, 50). by vm_compute.
  - by vm_compute.
Defined.

(** C8, as the code has it.  [LoadProgram] returns the bad-value failure
    exactly when the first line that fails matches the pattern with an
    address in [0, 50) and a value token that is not the text of an [int].
    The value token of the pattern is any number of dashes followed by one
    or more digits; it fails to parse exactly when it has two dashes or
    more, or denotes a number outside the range of [int]. *)
Theorem LoadProgram_bad_value (h : Machine) (r : Reader) :
  (∃ h' e, LoadProgram h r = Some (h', e) ∧
     (e = Some loadErrBadValue ↔
      ∃ pre line post whole a tok rest x n ds,
        lines r = pre ++ line :: post ∧ Forall loads pre
        ∧ Regexp.FindStringSubmatch re line = Some [whole; a; tok; rest]
        ∧ strconv.Atoi a = Some x ∧ 0 <= x < memSize
        ∧ tok = replicate n "-"%char ++ ds
        ∧ ds ≠ [] ∧ Forall (λ c, Regexp.digit c = true) ds
        ∧ unparsable n ds))
  ∧ (∀ line m,
       Regexp.FindStringSubmatch re line = Some m →
       ∃ n ds, m !! 2%nat = Some (replicate n "-"%char ++ ds)
         ∧ ds ≠ [] ∧ Forall (λ c, Regexp.digit c = true) ds
         ∧ (strconv.Atoi (replicate n "-"%char ++ ds) = None
            ↔ unparsable n ds)).
Proof.
  split.
  - rewrite LoadProgram_eq. simpl.
    assert (∀ k, firstFailure (lines r) = Some (k, loadErrBadValue) →
      ∃ pre line post whole a tok rest x n ds,
        lines r = pre ++ line :: post ∧ Forall loads pre
        ∧ Regexp.FindStringSubmatch re line = Some [whole; a; tok; rest]
        ∧ strconv.Atoi a = Some x ∧ 0 <= x < memSize
        ∧ tok = replicate n "-"%char ++ ds
        ∧ ds ≠ [] ∧ Forall (λ c, Regexp.digit c = true) ds
        ∧ unparsable n ds) as Hfwd.
    { intros k (pre & line & post & Hls & _ & Hpre & Hline)%firstFailure_Some.
      unfold parseLine in Hline.
      destruct (Regexp.FindStringSubmatch re line) as [m|] eqn:Hm; [|done].
      destruct (re_submatch _ _ Hm)
        as (whole & a & tok & rest & n & ds & -> & _ & _ & -> & Hne & Hds).
      simpl in Hline.
      destruct (strconv.Atoi a) as [x|] eqn:Ha; [|done].
      destruct ((x <? 0) || (x >=? memSize)) eqn:Hx; [done|].
      destruct (strconv.Atoi (replicate n "-"%char ++ ds)) eqn:Hv; [done|].
      exists pre, line, post, whole, a, (replicate n "-"%char ++ ds), rest,
        x, n, ds.
      repeat split; try done.
      - rewrite Z.geb_leb in Hx.
        apply orb_false_iff in Hx as [?%Z.ltb_ge _]. lia.
      - rewrite Z.geb_leb in Hx.
        apply orb_false_iff in Hx as [_ ?%Z.leb_gt]. lia.
      - by apply Atoi_token_None. }
    assert ((∃ pre line post whole a tok rest x n ds,
        lines r = pre ++ line :: post ∧ Forall loads pre
        ∧ Regexp.FindStringSubmatch re line = Some [whole; a; tok; rest]
        ∧ strconv.Atoi a = Some x ∧ 0 <= x < memSize
        ∧ tok = replicate n "-"%char ++ ds
        ∧ ds ≠ [] ∧ Forall (λ c, Regexp.digit c = true) ds
        ∧ unparsable n ds) →
      ∃ k, firstFailure (lines r) = Some (k, loadErrBadValue)) as Hbwd.
    { intros (pre & line & post & whole & a & tok & rest & x & n & ds
              & Hls & Hpre & Hm & Ha & Hx & -> & Hne & Hds & Hun).
      exists (length pre). apply firstFailure_Some.
      exists pre, line, post. repeat split; try done.
      unfold parseLine. rewrite Hm. simpl. rewrite Ha.
      assert ((x <? 0) || (x >=? memSize) = false) as ->.
      { rewrite Z.geb_leb. apply orb_false_iff.
        split; [apply Z.ltb_ge|apply Z.leb_gt]; lia. }
      by rewrite (proj2 (Atoi_token_None n ds Hne Hds) Hun). }
    destruct (firstFailure (lines r)) as [[k e]|] eqn:Hf.
    + eexists _, _. split; [reflexivity|]. split.
      * intros [= ->]. by eapply Hfwd.
      * intros [k' Hk']%Hbwd. congruence.
    + destruct (scan_err r); eexists _, _; (split; [reflexivity|]);
        (split; [done|]); by intros [k' Hk']%Hbwd.
  - intros line m Hm.
    destruct (re_submatch _ _ Hm)
      as (whole & a & tok & rest & n & ds & -> & _ & _ & -> & Hne & Hds).
    exists n, ds. repeat split; try done; by apply Atoi_token_None.
Qed.

(** C8, as the spec words it, fails: the loader's pattern accepts the line
    [0: --5], whose value token [--5] is not the text of an integer, and
    [LoadProgram] returns the bad-value failure for it; the same holds for
    a value of twenty digits. *)
Lemma LoadProgram_bad_value_reached :
  Regexp.FindStringSubmatch re (bytes "0: --5")
  = Some [bytes "0: --5"; bytes "0"; bytes "--5"; []]
  ∧ strconv.Atoi (bytes "--5") = None
  ∧ (∃ h', LoadProgram NewMachine (mkReader [bytes "0: --5"] false)
           = Some (h', Some loadErrBadValue))
  ∧ (∃ h', LoadProgram NewMachine
             (mkReader [bytes "0: 99999999999999999999"] false)
           = Some (h', Some loadErrBadValue))
  ∧ ¬ (∀ h r h' e, LoadProgram h r = Some (h', e) →
         e ≠ Some loadErrBadValue).
Proof.
  split; [by vm_compute|]. split; [by vm_compute|].
  split; [eexists; by vm_compute|]. split; [eexists; by vm_compute|].
  intros Hnever.
  eapply (Hnever NewMachine (mkReader [bytes "0: --5"] false)); by vm_compute.
Qed.

(** ** Steps and the state *)

Lemma getInstruction_known h a0 i :
  typed h = true → getInstruction h a0 = Some (i, CPUok, h) →
  existsb (op_is i) ops_entries.*2 = true.
Proof.
  intros Ht Hg.
  destruct (Z_lt_le_dec a0 0); [|destruct (Z_lt_le_dec a0 50)];
    try (rewrite getInstruction_out in Hg by lia; done).
  destruct (getInstruction_in h a0 Ht) as (w & _ & _ & Hg'); [lia|].
  rewrite Hg' in Hg.
  destruct (ops !! Z.quot w 1000) as [name|] eqn:Ho; [|done].
  assert (op i = name) as Hop.
  { destruct (inBounds (Z.rem w 1000)); by injection Hg as <-. }
  apply ops_lookup_Some in Ho. unfold op_is. rewrite Hop. clear -Ho.
  unfold ops_entries in Ho.
  repeat (apply elem_of_cons in Ho as [[= _ ->]|Ho]; [by vm_compute|]).
  by apply elem_of_nil in Ho.
Qed.

(** With a mnemonic of the table, the switch does not reach its default
    case: it halts, reports a division by zero, or leaves [state] alone. *)
Lemma dispatch_state h i inp h' evs :
  existsb (op_is i) ops_entries.*2 = true →
  dispatch h i inp = Some (h', evs) →
  state h' = state h ∨ state h' = CPUhalt ∨ state h' = CPUdivzero.
Proof.
  intros Hknown. dispatch_cases i; intros Hd;
    repeat match type of Hd with
    | context [index ?m ?a] => destruct (index m a); simpl in Hd
    | context [store ?m ?a ?v] => destruct (store m a v); simpl in Hd
    | context [GoInt.rem ?a ?b] => destruct (GoInt.rem a b); simpl in Hd
    | context [GoInt.quo ?a ?b] => destruct (GoInt.quo a b); simpl in Hd
    | context [if ?b then _ else _] => destruct b; simpl in Hd
    end; try discriminate Hd; try (injection Hd as <- _; simpl; tauto).
  simpl in Hknown.
  repeat match goal with
  | H : op_is _ _ = false |- _ => rewrite H in Hknown; clear H
  end.
  discriminate Hknown.
Qed.

Lemma Step_fault_only h inp h1 evs :
  typed h = true → state h = CPUok → Step h inp = Some (h1, evs) →
  state h1 = CPUbadinst ∨ state h1 = CPUbadaddr →
  ∃ i cs, getInstruction h (pc h) = Some (i, cs, h) ∧ cs ≠ CPUok
    ∧ h1 = set_state h cs ∧ evs = [].
Proof.
  intros Ht Hok Hs Hbad.
  destruct (getInstruction_total h (pc h) Ht) as (i & cs & Hg & _ & _).
  exists i, cs. split; [done|].
  destruct (decide (cs = CPUok)) as [->|Hcs].
  - exfalso. rewrite (Step_run h inp i Hg) in Hs.
    destruct (dispatch _ i inp) as [[h2 evs2]|] eqn:Hd; [|done].
    simpl in Hs. injection Hs as <- <-.
    apply dispatch_state in Hd; [|by eapply getInstruction_known].
    simpl in Hd. rewrite Hok in Hd.
    destruct Hd as [Hd|[Hd|Hd]], Hbad as [Hb|Hb]; congruence.
  - rewrite (Step_fault h inp i cs Hg Hcs) in Hs. by injection Hs as <- <-.
Qed.

Lemma getInstruction_agree h1 h2 a0 i cs :
  mem h1 = mem h2 →
  getInstruction h1 a0 = Some (i, cs, h1) →
  getInstruction h2 a0 = Some (i, cs, h2).
Proof.
  unfold getInstruction. intros <-.
  destruct (negb (inBounds a0)); [by intros [= <- <-]|].
  destruct (index (mem h1) a0) as [d|]; simpl; [|done].
  destruct (ops !! GoInt.wrap (Z.quot d 1000));
    [destruct (negb (inBounds (GoInt.wrap (Z.rem d 1000))))|];
    by intros [= <- <-].
Qed.

Lemma agree_set_pc h1 h2 v : agree h1 h2 → agree (set_pc h1 v) (set_pc h2 v).
Proof. unfold agree. simpl. tauto. Qed.

Lemma dispatch_agree h1 h2 i inp :
  agree h1 h2 →
  match dispatch h1 i inp, dispatch h2 i inp with
  | Some (k1, e1), Some (k2, e2) => agree k1 k2 ∧ e1 = e2
  | None, None => True
  | _, _ => False
  end.
Proof.
  destruct h1 as [m p a q s1 t], h2 as [m2 p2 a2 q2 s2 t2].
  unfold agree. simpl. intros (<- & <- & <- & <- & <-).
  dispatch_cases i; unfold set_ac, set_mq, set_pc, set_mem, set_state; simpl;
    repeat match goal with
    | |- context [index ?m ?a] => destruct (index m a); simpl
    | |- context [store ?m ?a ?v] => destruct (store m a v); simpl
    | |- context [GoInt.rem ?a ?b] => destruct (GoInt.rem a b); simpl
    | |- context [GoInt.quo ?a ?b] => destruct (GoInt.quo a b); simpl
    | |- context [if ?b then _ else _] => destruct b; simpl
    end; done.
Qed.

Lemma Step_agree h1 h2 inp :
  typed h1 = true → agree h1 h2 →
  ∃ k1 k2 evs, Step h1 inp = Some (k1, evs) ∧ Step h2 inp = Some (k2, evs)
    ∧ agree k1 k2.
Proof.
  intros Ht Hag.
  destruct (Step_kept h1 inp Ht) as (k1 & evs & Hs1 & _).
  destruct (getInstruction_total h1 (pc h1) Ht) as (i & cs & Hg & _ & _).
  pose proof Hag as (Hmem & Hpc & _ & _ & Htr).
  pose proof (getInstruction_agree h1 h2 (pc h1) i cs Hmem Hg) as Hg2.
  rewrite Hpc in Hg2. exists k1.
  destruct (decide (cs = CPUok)) as [->|Hcs].
  - rewrite Hs1. rewrite (Step_run h1 inp i Hg) in Hs1.
    rewrite (Step_run h2 inp i Hg2).
    pose proof (dispatch_agree (set_pc h1 (GoInt.add (pc h1) 1))
                  (set_pc h2 (GoInt.add (pc h1) 1)) i inp
                  (agree_set_pc _ _ _ Hag)) as Hd.
    unfold traced in *. rewrite <- Hpc, <- Htr.
    destruct (dispatch (set_pc h1 _) i inp) as [[x1 e1]|]; [|done].
    destruct (dispatch (set_pc h2 _) i inp) as [[x2 e2]|]; [|done].
    destruct Hd as [Hag' <-]. simpl in *. injection Hs1 as <- <-.
    eexists _, _. split; [reflexivity|]. split; [reflexivity|]. done.
  - rewrite Hs1. rewrite (Step_fault h1 inp i cs Hg Hcs) in Hs1.
    injection Hs1 as <- <-.
    rewrite (Step_fault h2 inp i cs Hg2 Hcs).
    eexists _, _. split; [reflexivity|]. split; [reflexivity|]. done.
Qed.

Lemma agree_set_state h s : agree h (set_state h s).
Proof. by repeat split. Qed.

(** C9, as the code has it.  [Step] never reads [state].  On a machine
    whose state is not [CPUok] it does what it would do were the machine
    runnable: PC, AC, MQ, the memory and the hook calls of the step are the
    same whatever the state was.  The step is without effect when the word
    at PC does not decode to a runnable instruction; that is the case of
    every machine [Step] has taken from [CPUok] to [CPUbadinst] or
    [CPUbadaddr], on which a further step changes nothing at all. *)
Theorem Step_ignores_state (h : Machine) (inp : Z) :
  typed h = true →
  (∀ s, ∃ h1 h2 evs,
     Step h inp = Some (h1, evs) ∧ Step (set_state h s) inp = Some (h2, evs)
     ∧ mem h2 = mem h1 ∧ pc h2 = pc h1 ∧ ac h2 = ac h1 ∧ mq h2 = mq h1)
  ∧ (∀ i cs, getInstruction h (pc h) = Some (i, cs, h) → cs ≠ CPUok →
     Step h inp = Some (set_state h cs, []))
  ∧ (∀ h1 evs,
     state h = CPUok → Step h inp = Some (h1, evs) →
     state h1 = CPUbadinst ∨ state h1 = CPUbadaddr →
     evs = [] ∧ mem h1 = mem h ∧ pc h1 = pc h ∧ ac h1 = ac h ∧ mq h1 = mq h
     ∧ ∀ inp', Step h1 inp' = Some (h1, [])).
Proof.
  intros Ht. repeat apply conj.
  - intros s.
    destruct (Step_agree h (set_state h s) inp Ht (agree_set_state h s))
      as (k1 & k2 & evs & Hs1 & Hs2 & Hm & Hp & Ha & Hq & _).
    exists k1, k2, evs. by repeat split.
  - intros i cs Hg Hcs. by apply (Step_fault h inp i cs).
  - intros h1 evs Hok Hs Hbad.
    destruct (Step_fault_only h inp h1 evs Ht Hok Hs Hbad)
      as (i & cs & Hg & Hcs & -> & ->).
    repeat split. intros inp'.
    pose proof (getInstruction_agree h (set_state h cs) (pc h) i cs
                  eq_refl Hg) as Hg'.
    by rewrite (Step_fault (set_state h cs) inp' i cs Hg' Hcs).
Qed.

Lemma Step_ignores_state_witness :
  Step (set_state (fixture 32005 0 7) CPUbadinst) 5
  = Some (set_state (fixture 32005 0 7) CPUbadinst, []).
Proof.
  destruct (Step_ignores_state (fixture 32005 0 7) 0 eq_refl)
    as (_ & _ & Hagain).
  destruct (Hagain (set_state (fixture 32005 0 7) CPUbadinst) [])
    as (_ & _ & _ & _ & _ & Hstep); [done|by vm_compute|by left|].
  exact (Hstep 5).
Defined.

(** The program of the counterexample to C9: HLT at 0, LAC 2 at 1, the
    number 7 at 2. *)
Lemma Step_on_halted_executes :
  ∃ h h',
    calls NewMachine
      [CallLoadProgram
         (mkReader [bytes "0: 0"; bytes "1: 10002"; bytes "2: 7"] false);
       CallStep 0] = Some h
    ∧ typed h = true ∧ state h = CPUhalt ∧ ac h = 0
    ∧ Step h 0 = Some (h', []) ∧ ac h' = 7
    ∧ ¬ (∀ (h : Machine) (inp : Z) (h' : Machine) (evs : list Event),
           typed h = true → state h ≠ CPUok → Step h inp = Some (h', evs) →
           ac h' = ac h ∧ mq h' = mq h ∧ mem h' = mem h).
Proof.
  eexists _, _. split; [by vm_compute|].
  split; [by vm_compute|]. split; [done|]. split; [done|].
  split; [by vm_compute|]. split; [done|].
  intros Hall.
  match goal with
  | |- False =>
      destruct (Hall (mkMachine (<[2%nat := 7]> (<[1%nat := 10002]> zeroMem))
                        1 0 0 CPUhalt false) 0
                  (mkMachine (<[2%nat := 7]> (<[1%nat := 10002]> zeroMem))
                        2 7 0 CPUhalt false) [])
        as (Hac & _); [by vm_compute|done|by vm_compute|done]
  end.
Qed.

Lemma Steps_kept inps : ∀ h,
  typed h = true → ∃ h' evs, Steps h inps = Some (h', evs) ∧ kept h h'.
Proof.
  induction inps as [|inp inps IH]; intros h Ht; simpl.
  - eexists _, _. split; [done|]. apply kept_refl.
  - destruct (Step_kept h inp Ht) as (h1 & e1 & -> & Hk1). simpl.
    destruct (IH h1 (kept_typed _ _ Hk1 Ht)) as (h2 & e2 & -> & Hk2). simpl.
    eexists _, _. split; [done|]. by eapply kept_trans.
Qed.

(** C10. [Step] never sets [state] to [CPUok]: a machine that is runnable
    after a step was runnable before it, and so a machine that is not
    runnable stays so through any number of steps, whatever the read hook
    returns.  [ResetCPU] makes the machine runnable, and so does a
    [LoadProgram] that returns no failure (one that returns a failure
    leaves it halted). *)
Theorem Step_never_restores (h : Machine) :
  typed h = true →
  (∀ inp, ∃ h' evs, Step h inp = Some (h', evs) ∧
     (state h' = CPUok → state h = CPUok)) ∧
  (∀ inps, ∃ h' evs, Steps h inps = Some (h', evs) ∧
     (state h ≠ CPUok → state h' ≠ CPUok)) ∧
  state (ResetCPU h) = CPUok ∧
  (∀ r, ∃ h' e, LoadProgram h r = Some (h', e) ∧
     (e = None → state h' = CPUok) ∧ (e ≠ None → state h' = CPUhalt)).
Proof.
  intros Ht. repeat apply conj.
  - intros inp. destruct (Step_kept h inp Ht) as (h' & evs & Hs & Hk).
    exists h', evs. split; [done|]. apply Hk.
  - intros inps. destruct (Steps_kept inps h Ht) as (h' & evs & Hs & Hk).
    exists h', evs. split; [done|]. intros Hne Hok. by apply Hne, Hk.
  - done.
  - intros r. rewrite LoadProgram_eq. simpl.
    destruct (firstFailure (lines r)) as [[k e]|]; [|destruct (scan_err r)];
      eexists _, _; (split; [reflexivity|]); by split.
Qed.

Lemma Step_never_restores_witness :
  ∃ h' evs,
    Steps (set_state (fixture 10001 42 0) CPUhalt) [0; 0; 0] = Some (h', evs)
    ∧ state h' ≠ CPUok.
Proof.
  destruct (Step_never_restores (set_state (fixture 10001 42 0) CPUhalt)
              eq_refl)
    as (_ & Hsteps & _).
  destruct (Hsteps [0; 0; 0]) as (h' & evs & Hs & Hst).
  exists h', evs. split; [done|]. by apply Hst.
Defined.

(** ** The legal range *)

Lemma call_bounded h c :
  bounded h = true → GoInt.is_int (pc h) →
  ∃ h', call h c = Some h' ∧ bounded h' = true ∧ GoInt.is_int (pc h').
Proof.
  intros Hb Hp. pose proof (bounded_typed h Hb Hp) as Ht.
  destruct c as [r|inp|]; simpl.
  - rewrite LoadProgram_eq.
    destruct zeroMem_legal as [Hzl Hzb].
    destruct (assignLines_legal (lines r) zeroMem Hzl Hzb) as [Hal Hab].
    apply bounded_iff in Hb as (_ & _ & Ha & Hq).
    assert (bounded (set_mem (set_state h CPUhalt)
                       (assignLines zeroMem (lines r))) = true) as Hb'.
    { by apply bounded_iff. }
    simpl. destruct (firstFailure (lines r)) as [[k e]|];
      [|destruct (scan_err r)]; simpl;
      (eexists; split; [reflexivity|]; split; [exact Hb'|exact Hp]).
  - destruct (Step_kept h inp Ht) as (h' & evs & -> & Hk). simpl.
    exists h'. split; [done|]. split; [by apply Hk|].
    pose proof (kept_typed _ _ Hk Ht) as Ht'.
    by apply typed_iff in Ht' as (_ & _ & ? & _).
  - eexists. split; [done|]. split; [|done].
    apply bounded_iff in Hb as (? & ? & _ & _). by apply bounded_iff.
Qed.

Lemma calls_bounded_from cs : ∀ h,
  bounded h = true → GoInt.is_int (pc h) →
  ∃ h', calls h cs = Some h' ∧ bounded h' = true.
Proof.
  induction cs as [|c cs IH]; intros h Hb Hp; simpl.
  - by exists h.
  - destruct (call_bounded h c Hb Hp) as (h1 & -> & Hb1 & Hp1). simpl.
    by apply IH.
Qed.

(** C3. From a new machine, whatever calls of [LoadProgram], [Step] (the
    read hook returning any integers) and [ResetCPU] are made, in whatever
    order, every call returns, the memory has its fifty cells, and every
    cell, AC and MQ lie in [-99999, 99999]; so [boundsCap] would change
    none of the values that LAC, PAC, LMQ and PMQ copy. *)
Theorem calls_bounded (cs : list Call) :
  ∃ h, calls NewMachine cs = Some h ∧
    length (mem h) = 50%nat ∧
    (∀ x, x ∈ mem h → -99999 <= x <= 99999) ∧
    -99999 <= ac h <= 99999 ∧ -99999 <= mq h <= 99999 ∧
    (∀ x, x ∈ mem h → boundsCap x = x) ∧
    boundsCap (ac h) = ac h ∧ boundsCap (mq h) = mq h.
Proof.
  destruct (calls_bounded_from cs NewMachine) as (h & Hc & Hb); [done..|].
  exists h. split; [done|].
  apply bounded_iff in Hb as (Hl & Hm & Ha & Hq).
  rewrite Forall_forall in Hm.
  split; [exact Hl|]. split; [|split; [|split; [|split; [|split]]]].
  - intros x Hx. by apply legal_true, Hm.
  - by apply legal_true.
  - by apply legal_true.
  - intros x Hx. by apply boundsCap_id, Hm.
  - by apply boundsCap_id.
  - by apply boundsCap_id.
Qed.

(** * Further properties of machine.go *)

(** ** Capping *)

(** X1. [boundsCap] gives the legal value nearest to its argument: the
    result is legal, a legal argument is returned as it is, capping twice
    is capping once, and capping keeps the order of its arguments. *)
Theorem boundsCap_nearest (x : Z) :
  -99999 <= boundsCap x <= 99999
  ∧ boundsCap x = Z.max (-99999) (Z.min 99999 x)
  ∧ (-99999 <= x <= 99999 → boundsCap x = x)
  ∧ boundsCap (boundsCap x) = boundsCap x
  ∧ (∀ y, x <= y → boundsCap x <= boundsCap y)
  ∧ (∀ z, -99999 <= z <= 99999 → Z.abs (boundsCap x - x) <= Z.abs (z - x)).
Proof.
  assert (∀ y, boundsCap y = Z.max (-99999) (Z.min 99999 y)) as Hcap.
  { intros y. unfold boundsCap.
    destruct (Z.gtb_spec y 99999), (Z.ltb_spec y (-99999)); lia. }
  repeat apply conj.
  - rewrite Hcap. lia.
  - rewrite Hcap. lia.
  - apply Hcap.
  - intros Hx. rewrite Hcap. lia.
  - rewrite !Hcap. lia.
  - intros y Hxy. rewrite !Hcap. lia.
  - intros z Hz. rewrite Hcap. lia.
Qed.

Lemma boundsCap_nearest_witness :
  boundsCap 123 = 123 ∧ boundsCap 100000 <= boundsCap 123456.
Proof.
  destruct (boundsCap_nearest 123) as (_ & _ & Hid & _).
  destruct (boundsCap_nearest 100000) as (_ & _ & _ & _ & Hmono & _).
  split; [apply Hid; lia|apply Hmono; lia].
Defined.

(** ** Words that are instructions *)

Lemma ops_keys_range o name : (o, name) ∈ ops_entries → 0 <= o <= 31.
Proof.
  unfold ops_entries. intros Ho.
  repeat (apply elem_of_cons in Ho as [[= -> _]|Ho]; [lia|]).
  by apply elem_of_nil in Ho.
Qed.

(** X2. A cell holds a runnable instruction exactly when its word is
    [o * 1000 + t] for an opcode [o] of the table and a target [t] in
    [0, 50), and it then decodes to that mnemonic and that target; so every
    negative word and every word above 31049 is refused. *)
Theorem getInstruction_runnable_iff (h : Machine) (a0 w : Z) :
  typed h = true → 0 <= a0 < memSize → mem h !! Z.to_nat a0 = Some w →
  (∀ i, getInstruction h a0 = Some (i, CPUok, h)
        ↔ ∃ o, (o, op i) ∈ ops_entries ∧ 0 <= addr i < memSize
               ∧ w = o * 1000 + addr i)
  ∧ ((∃ i, getInstruction h a0 = Some (i, CPUok, h)) → 0 <= w <= 31049).
Proof.
  intros Ht Ha Hw. unfold memSize in *.
  destruct (getInstruction_in h a0 Ht Ha) as (w' & Hw' & _ & Hg).
  assert (w' = w) as -> by congruence.
  assert (∀ i, getInstruction h a0 = Some (i, CPUok, h)
        ↔ ∃ o, (o, op i) ∈ ops_entries ∧ 0 <= addr i < 50
               ∧ w = o * 1000 + addr i) as Hiff.
  { intros i. rewrite Hg. split.
    - destruct (ops !! Z.quot w 1000) as [name|] eqn:Ho; [|done].
      destruct (inBounds (Z.rem w 1000)) eqn:Hb; [|done].
      intros [= <-]. simpl. exists (Z.quot w 1000).
      apply ops_lookup_Some in Ho. apply inBounds_true in Hb.
      split; [done|]. split; [done|].
      pose proof (Z.quot_rem' w 1000). lia.
    - intros (o & Ho & Ht' & ->).
      pose proof (ops_keys_range _ _ Ho) as Hor.
      assert (Z.quot (o * 1000 + addr i) 1000 = o) as ->.
      { rewrite Z.quot_div_nonneg by lia. symmetry.
        apply (Z.div_unique _ _ _ (addr i)); lia. }
      assert (Z.rem (o * 1000 + addr i) 1000 = addr i) as ->.
      { rewrite Z.rem_mod_nonneg by lia. symmetry.
        apply (Z.mod_unique _ _ o); lia. }
      apply ops_lookup_Some in Ho. rewrite Ho.
      apply inBounds_true in Ht'. rewrite Ht'. by destruct i. }
  split; [exact Hiff|].
  intros [i (o & Ho & Ht' & ->)%Hiff].
  pose proof (ops_keys_range _ _ Ho). lia.
Qed.

Lemma getInstruction_runnable_iff_witness :
  getInstruction (fixture 22003 0 0) 0
  = Some (mkInstruction "MUL" 3, CPUok, fixture 22003 0 0).
Proof.
  destruct (getInstruction_runnable_iff (fixture 22003 0 0) 0 22003
              eq_refl ltac:(done) eq_refl) as [Hiff _].
  apply (Hiff (mkInstruction "MUL" 3)). exists 22. simpl.
  split; [|done]. apply (bool_decide_unpack _). by vm_compute.
Defined.

(** ** What a load depends on *)

(** X3. [LoadProgram] touches the memory and the state only: PC, AC, MQ
    and the trace flag are what they were.  The memory, the state and the
    failure it returns depend on the input alone, not on the machine it is
    called on, so loading the same input again changes nothing. *)
Theorem LoadProgram_history (h1 h2 : Machine) (r : Reader) :
  ∃ m s e,
    LoadProgram h1 r
    = Some (mkMachine m (pc h1) (ac h1) (mq h1) s (trace h1), e)
    ∧ LoadProgram h2 r
      = Some (mkMachine m (pc h2) (ac h2) (mq h2) s (trace h2), e)
    ∧ LoadProgram (mkMachine m (pc h1) (ac h1) (mq h1) s (trace h1)) r
      = Some (mkMachine m (pc h1) (ac h1) (mq h1) s (trace h1), e).
Proof.
  pose proof (LoadProgram_eq h1 r) as H1.
  pose proof (LoadProgram_eq h2 r) as H2.
  pose proof (λ s, LoadProgram_eq
    (mkMachine (assignLines zeroMem (lines r)) (pc h1) (ac h1) (mq h1) s
       (trace h1)) r) as H3.
  simpl in *.
  destruct (firstFailure (lines r)) as [[k e]|]; [|destruct (scan_err r)].
  - exists (assignLines zeroMem (lines r)), CPUhalt, (Some e).
    by rewrite H1, H2, H3.
  - exists (assignLines zeroMem (lines r)), CPUhalt, (Some loadErrBadFile).
    by rewrite H1, H2, H3.
  - exists (assignLines zeroMem (lines r)), CPUok, None.
    by rewrite H1, H2, H3.
Qed.

Lemma parseLine_range line a v :
  parseLine line = inr (a, v) → 0 <= a < 50.
Proof.
  unfold parseLine.
  destruct (Regexp.FindStringSubmatch re line) as [m|]; [|done].
  destruct (strconv.Atoi (nth 1 m [])) as [x|]; [|done].
  destruct ((x <? 0) || (x >=? memSize)) eqn:Hx; [done|].
  destruct (strconv.Atoi (nth 2 m [])); [|done]. intros [= <- _].
  rewrite Z.geb_leb in Hx.
  apply orb_false_iff in Hx as [?%Z.ltb_ge ?%Z.leb_gt].
  unfold memSize in *. lia.
Qed.

Lemma assignLines_lookup ls : ∀ m i,
  length m = 50%nat → Forall loads ls → (i < 50)%nat →
  assignLines m ls !! i
  = match assigned ls i with
    | Some v => Some v
    | None => m !! i
    end.
Proof.
  induction ls as [|l ls IH]; intros m i Hlen Hls Hi; simpl; [done|].
  apply Forall_cons in Hls as [[[a v] Hav] Hls]. rewrite Hav.
  pose proof (parseLine_range _ _ _ Hav) as Ha.
  rewrite IH by (rewrite ?length_insert; done).
  destruct (assigned ls i); [done|].
  destruct (Nat.eqb_spec (Z.to_nat a) i) as [<-|Hne].
  - apply list_lookup_insert_eq. lia.
  - by apply list_lookup_insert_ne.
Qed.

(** X4. After a load, a cell holds the capped value of the last line that
    names it among the lines that were loaded -- all of them when no line
    fails, those before the first failing line otherwise -- and 0 when no
    such line names it. *)
Theorem LoadProgram_last_wins (h : Machine) (r : Reader) :
  ∃ h' e, LoadProgram h r = Some (h', e) ∧
    (Forall loads (lines r) →
       ∀ i, (i < 50)%nat →
         mem h' !! i = Some (default 0 (assigned (lines r) i))) ∧
    (∀ pre line post err,
       lines r = pre ++ line :: post → Forall loads pre →
       parseLine line = inl err →
       ∀ i, (i < 50)%nat → mem h' !! i = Some (default 0 (assigned pre i))).
Proof.
  assert (∀ ls i, Forall loads ls → (i < 50)%nat →
            assignLines zeroMem ls !! i = Some (default 0 (assigned ls i)))
    as Hcell.
  { intros ls i Hls Hi. rewrite assignLines_lookup by done.
    destruct (assigned ls i); [done|]. simpl.
    unfold zeroMem. apply lookup_replicate_2.
    change (Z.to_nat memSize) with 50%nat. lia. }
  rewrite LoadProgram_eq. simpl.
  assert (∀ pre line post err,
       lines r = pre ++ line :: post → Forall loads pre →
       parseLine line = inl err →
       ∀ i, (i < 50)%nat →
         assignLines zeroMem (lines r) !! i
         = Some (default 0 (assigned pre i))) as Hfail.
  { intros pre line post err Hls Hpre Hline i Hi.
    rewrite Hls, (assignLines_stops zeroMem pre line post err) by done.
    by apply Hcell. }
  destruct (firstFailure (lines r)) as [[k e]|]; [|destruct (scan_err r)];
    eexists _, _; (split; [reflexivity|]); simpl; split; auto.
Qed.

Lemma LoadProgram_last_wins_witness :
  ∃ h' e,
    LoadProgram NewMachine
      (mkReader [bytes "0: 100"; bytes "1: 7"; bytes "0: 200"] false)
    = Some (h', e)
    ∧ mem h' !! 0%nat = Some 200.
Proof.
  destruct (LoadProgram_last_wins NewMachine
              (mkReader [bytes "0: 100"; bytes "1: 7"; bytes "0: 200"] false))
    as (h' & e & Hl & Hall & _).
  exists h', e. split; [done|]. apply (Hall ltac:(
    repeat (constructor; [eexists; by vm_compute|]); constructor) 0%nat).
  lia.
Defined.

(** X5. A load followed by [ResetCPU] gives, from any machine, the machine
    with the memory the input describes, PC, AC and MQ zero and the state
    [CPUok] -- also when the load has failed on some line, in which case
    the lines before it are in memory. *)
Theorem LoadProgram_then_ResetCPU (h : Machine) (r : Reader) :
  calls h [CallLoadProgram r; CallResetCPU]
  = Some (mkMachine (assignLines zeroMem (lines r)) 0 0 0 CPUok (trace h)).
Proof.
  simpl. rewrite LoadProgram_eq. simpl.
  by destruct (firstFailure (lines r)) as [[k e]|]; [|destruct (scan_err r)].
Qed.

(** ** The cases of a step *)

Ltac pick :=
  first [ by repeat split | left; by repeat split | right; pick ].

Lemma op_is_true i name : op_is i name = true → op i = name.
Proof. apply String.eqb_eq. Qed.

(** The switch of [Step], case by case. *)
Lemma dispatch_outcome h i inp :
  length (mem h) = 50%nat → 0 <= addr i < 50 →
  ∃ v h' evs,
    mem h !! Z.to_nat (addr i) = Some v ∧ dispatch h i inp = Some (h', evs) ∧
    ( (op i = "HLT" ∧ evs = [] ∧ h' = set_state h CPUhalt)
    ∨ (op i = "JEQ" ∧ evs = []
       ∧ h' = if ac h =? 0 then set_pc h (addr i) else h)
    ∨ (op i = "JGT" ∧ evs = []
       ∧ h' = if ac h >? 0 then set_pc h (addr i) else h)
    ∨ (op i = "JLT" ∧ evs = []
       ∧ h' = if ac h <? 0 then set_pc h (addr i) else h)
    ∨ (op i = "JMP" ∧ evs = [] ∧ h' = set_pc h (addr i))
    ∨ (op i = "JLE" ∧ evs = []
       ∧ h' = if ac h <=? 0 then set_pc h (addr i) else h)
    ∨ (op i = "JNE" ∧ evs = []
       ∧ h' = if negb (ac h =? 0) then set_pc h (addr i) else h)
    ∨ (op i = "LAC" ∧ evs = [] ∧ h' = set_ac h v)
    ∨ (op i = "PAC" ∧ evs = []
       ∧ h' = set_mem h (<[Z.to_nat (addr i) := ac h]> (mem h)))
    ∨ (op i = "LMQ" ∧ evs = [] ∧ h' = set_mq h v)
    ∨ (op i = "PMQ" ∧ evs = []
       ∧ h' = set_mem h (<[Z.to_nat (addr i) := mq h]> (mem h)))
    ∨ (op i = "ADD" ∧ evs = []
       ∧ h' = set_ac h (boundsCap (GoInt.add (ac h) v)))
    ∨ (op i = "SUB" ∧ evs = []
       ∧ h' = set_ac h (boundsCap (GoInt.sub (ac h) v)))
    ∨ (op i = "MUL" ∧ evs = []
       ∧ h' = set_mq h (boundsCap (GoInt.mul (mq h) v)))
    ∨ (op i = "DIV" ∧ evs = [] ∧ v = 0 ∧ h' = set_state h CPUdivzero)
    ∨ (op i = "DIV" ∧ evs = [] ∧ v ≠ 0
       ∧ h' = set_mq (set_ac h (GoInt.wrap (Z.rem (mq h) v)))
                (GoInt.wrap (Z.quot (mq h) v)))
    ∨ (op i = "GET" ∧ evs = [EvInput inp]
       ∧ h' = set_mem h (<[Z.to_nat (addr i) := boundsCap inp]> (mem h)))
    ∨ (op i = "PUT" ∧ evs = [EvOutput v] ∧ h' = h)
    ∨ (existsb (op_is i) ops_entries.*2 = false ∧ evs = []
       ∧ h' = set_state h CPUbadinst) ).
Proof.
  intros Hlen Haddr.
  destruct (index_Some (mem h) (addr i)) as (v & Hv & Hl); [lia|].
  pose proof (cell_store h i Hlen Haddr) as Hst.
  exists v.
  dispatch_cases i;
    repeat match goal with
    | H : op_is _ _ = true |- _ => apply op_is_true in H
    end;
    rewrite ?Hv, ?Hst; simpl.
  1-14: eexists _, _; (split; [exact Hl|]); (split; [reflexivity|]); pick.
  - destruct (Z.eqb_spec v 0) as [Hz|Hnz].
    + eexists _, _. split; [exact Hl|]. split; [reflexivity|]. pick.
    + apply Z.eqb_neq in Hnz as Hz.
      unfold GoInt.rem. rewrite ?Hz. simpl. rewrite ?Hv. simpl.
      unfold GoInt.quo. rewrite ?Hz. simpl.
      eexists _, _. split; [exact Hl|]. split; [reflexivity|]. pick.
  - eexists _, _. split; [exact Hl|]. split; [reflexivity|]. pick.
  - eexists _, _. split; [exact Hl|]. split; [reflexivity|]. pick.
  - eexists _, _. split; [exact Hl|]. split; [reflexivity|].
    do 18 right. split; [|done]. simpl.
    repeat match goal with
    | H : op_is _ _ = false |- _ => rewrite H; clear H
    end. done.
Qed.

Lemma Step_outcome h inp :
  typed h = true →
  ∃ i cs, getInstruction h (pc h) = Some (i, cs, h) ∧
    ( (cs ≠ CPUok ∧ (cs = CPUbadinst ∨ cs = CPUbadaddr)
       ∧ Step h inp = Some (set_state h cs, []))
    ∨ (cs = CPUok ∧ 0 <= pc h < 50 ∧ 0 <= addr i < 50
       ∧ existsb (op_is i) ops_entries.*2 = true
       ∧ Step h inp =
           '(h2, evs) ← dispatch (set_pc h (pc h + 1)) i inp;
           Some (h2, traced h i ++ evs)) ).
Proof.
  intros Ht.
  destruct (getInstruction_total h (pc h) Ht) as (i & cs & Hg & Hok & Hbad).
  exists i, cs. split; [done|].
  destruct (decide (cs = CPUok)) as [->|Hcs].
  - right. split; [done|].
    assert (0 <= pc h < 50) as Hpc.
    { destruct (Z_lt_le_dec (pc h) 0); [|destruct (Z_lt_le_dec (pc h) 50)];
        [|lia|]; rewrite getInstruction_out in Hg by lia; done. }
    split; [done|]. split; [auto|].
    split; [exact (getInstruction_known h (pc h) i Ht Hg)|].
    rewrite (Step_run h inp i Hg). unfold GoInt.add.
    rewrite wrap_small; [done|].
    unfold GoInt.is_int, GoInt.min_int, GoInt.max_int. lia.
  - left. split; [done|]. split; [auto|]. by apply (Step_fault h inp i cs).
Qed.

Ltac step_cases h inp Ht :=
  let i := fresh "i" in let cs := fresh "cs" in
  let Hg := fresh "Hg" in let Hs := fresh "Hs" in
  let Hcs := fresh "Hcs" in let Hverdict := fresh "Hverdict" in
  let Hpc := fresh "Hpc" in let Ha := fresh "Ha" in
  let Hknown := fresh "Hknown" in
  let v := fresh "v" in let h' := fresh "h'" in let evs := fresh "evs" in
  let Hv := fresh "Hv" in let Hd := fresh "Hd" in let Hcase := fresh "Hcase" in
  destruct (Step_outcome h inp Ht)
    as (i & cs & Hg & [(Hcs & Hverdict & Hs)|(-> & Hpc & Ha & Hknown & Hs)]);
  [|destruct (dispatch_outcome (set_pc h (pc h + 1)) i inp)
      as (v & h' & evs & Hv & Hd & Hcase);
    [by apply typed_iff in Ht as (? & _)|exact Ha|];
    rewrite Hd in Hs; simpl in Hs, Hv].



Ltac dispatch_split H := destruct_or! H; destruct_and!; subst.

Lemma hooks_traced h i evs : hooks (traced h i ++ evs) = hooks evs.
Proof. unfold traced. by destruct (trace h). Qed.

(** X7. A step calls a hook at most once.  It calls the read hook exactly
    when its instruction is GET, and the named cell then holds the capped
    value read; it calls the write hook exactly when its instruction is
    PUT, with the value of the named cell, and changes nothing then but the
    program counter. *)
Theorem Step_hooks (h : Machine) (inp : Z) :
  typed h = true →
  ∃ h' evs i cs,
    Step h inp = Some (h', evs) ∧ getInstruction h (pc h) = Some (i, cs, h) ∧
    ( (cs = CPUok ∧ op i = "GET" ∧ hooks evs = [EvInput inp]
       ∧ mem h' !! Z.to_nat (addr i) = Some (boundsCap inp))
    ∨ (cs = CPUok ∧ op i = "PUT" ∧ ∃ v,
         mem h !! Z.to_nat (addr i) = Some v ∧ hooks evs = [EvOutput v]
         ∧ h' = set_pc h (pc h + 1))
    ∨ ((cs ≠ CPUok ∨ (op i ≠ "GET" ∧ op i ≠ "PUT")) ∧ hooks evs = []) ).
Proof.
  intros Ht. step_cases h inp Ht.
  - eexists _, _, i, cs. split; [exact Hs|]. split; [done|].
    right. right. split; [by left|done].
  - eexists _, _, i, CPUok. split; [exact Hs|]. split; [done|].
    rewrite hooks_traced.
    assert (length (mem h) = 50%nat) as Hlen
      by (by apply typed_iff in Ht as (? & _)).
    dispatch_split Hcase;
      try (right; right; split; [right; split; congruence|done]).
    + left. repeat split; try done. simpl.
      apply list_lookup_insert_eq. lia.
    + right. left. split; [done|]. split; [done|]. by exists v.
Qed.

Lemma Step_hooks_witness :
  ∃ h' evs, Step (fixture 31001 42 0) 0 = Some (h', evs)
    ∧ hooks evs = [EvOutput 42].
Proof.
  destruct (Step_hooks (fixture 31001 42 0) 0 eq_refl)
    as (h' & evs & i & cs & Hs & Hg & Hcase).
  exists h', evs. split; [done|].
  vm_compute in Hg. injection Hg as <- <-.
  destruct Hcase as [(_ & [=] & _)|[(_ & _ & v & Hv & Hh & _)|([?|[_ ?]] & _)]];
    try done.
  vm_compute in Hv. by injection Hv as <-.
Defined.

(** X8. What brings a machine into each state: a step leaves [state] as it
    was, or halts on a HLT, or reports a division by zero on a DIV whose
    cell holds 0, or stores the verdict of the decoder.  The default case
    of its switch is never taken. *)
Theorem Step_state_causes (h : Machine) (inp : Z) :
  typed h = true →
  ∃ h' evs i cs,
    Step h inp = Some (h', evs) ∧ getInstruction h (pc h) = Some (i, cs, h) ∧
    ( (cs = CPUok ∧ state h' = state h)
    ∨ (cs = CPUok ∧ op i = "HLT" ∧ state h' = CPUhalt)
    ∨ (cs = CPUok ∧ op i = "DIV" ∧ mem h !! Z.to_nat (addr i) = Some 0
       ∧ state h' = CPUdivzero)
    ∨ (cs ≠ CPUok ∧ state h' = cs) )
    ∧ (cs = CPUok → existsb (op_is i) ops_entries.*2 = true).
Proof.
  intros Ht. step_cases h inp Ht.
  - eexists _, _, i, cs. split; [exact Hs|]. split; [done|].
    split; [|done]. by do 3 right.
  - eexists _, _, i, CPUok. split; [exact Hs|]. split; [done|].
    split; [|done].
    dispatch_split Hcase; simpl;
      try (left; split; [done|];
           repeat match goal with
                  | |- context [if ?b then _ else _] => destruct b
                  end; done).
    + right. by left.
    + right. right. by left.
    + congruence.
Qed.

Lemma Step_state_causes_witness :
  ∃ h' evs i cs,
    Step (fixture 23001 0 5) 0 = Some (h', evs)
    ∧ getInstruction (fixture 23001 0 5) (pc (fixture 23001 0 5))
      = Some (i, cs, fixture 23001 0 5)
    ∧ ( (cs = CPUok ∧ state h' = state (fixture 23001 0 5))
      ∨ (cs = CPUok ∧ op i = "HLT" ∧ state h' = CPUhalt)
      ∨ (cs = CPUok ∧ op i = "DIV"
         ∧ mem (fixture 23001 0 5) !! Z.to_nat (addr i) = Some 0
         ∧ state h' = CPUdivzero)
      ∨ (cs ≠ CPUok ∧ state h' = cs) )
    ∧ (cs = CPUok → existsb (op_is i) ops_entries.*2 = true).
Proof. exact (Step_state_causes (fixture 23001 0 5) 0 eq_refl). Defined.

(** ** The program counter *)

Lemma Step_pc h inp :
  typed h = true → 0 <= pc h <= 50 →
  ∃ h' evs, Step h inp = Some (h', evs) ∧ 0 <= pc h' <= 50.
Proof.
  intros Ht Hrange. step_cases h inp Ht.
  - eexists _, _. split; [exact Hs|]. done.
  - eexists _, _. split; [exact Hs|].
    dispatch_split Hcase; simpl;
      repeat match goal with
             | |- context [if ?b then _ else _] => destruct b
             end; simpl; lia.
Qed.

Lemma call_pc h c :
  bounded h = true → 0 <= pc h <= 50 →
  ∃ h', call h c = Some h' ∧ bounded h' = true ∧ 0 <= pc h' <= 50.
Proof.
  intros Hb Hp.
  assert (GoInt.is_int (pc h)) as Hint.
  { unfold GoInt.is_int, GoInt.min_int, GoInt.max_int. lia. }
  destruct (call_bounded h c Hb Hint) as (h' & Hc & Hb' & _).
  exists h'. split; [done|]. split; [done|].
  destruct c as [r|inp|]; simpl in Hc.
  - rewrite LoadProgram_eq in Hc. simpl in Hc.
    destruct (firstFailure (lines r)) as [[k e]|]; [|destruct (scan_err r)];
      simpl in Hc; by injection Hc as <-.
  - destruct (Step_pc h inp (bounded_typed h Hb Hint) Hp)
      as (h2 & evs & Hs & Hp2).
    rewrite Hs in Hc. simpl in Hc. by injection Hc as <-.
  - by injection Hc as <-.
Qed.

Lemma calls_pc_from cs : ∀ h,
  bounded h = true → 0 <= pc h <= 50 →
  ∃ h', calls h cs = Some h' ∧ bounded h' = true ∧ 0 <= pc h' <= 50.
Proof.
  induction cs as [|c cs IH]; intros h Hb Hp; simpl.
  - by exists h.
  - destruct (call_pc h c Hb Hp) as (h1 & -> & Hb1 & Hp1). simpl.
    by apply IH.
Qed.

(** X9. From a new machine, whatever calls are made, the program counter
    stays within [0, 50].  It is 50 after the instruction in the last cell
    has run without a jump, and a step then reports an invalid instruction
    and changes nothing else. *)
Theorem calls_pc_range (cs : list Call) :
  ∃ h, calls NewMachine cs = Some h ∧ 0 <= pc h <= 50 ∧
    (pc h = 50 → ∀ inp, Step h inp = Some (set_state h CPUbadinst, [])).
Proof.
  destruct (calls_pc_from cs NewMachine) as (h & Hc & Hb & Hp); [done..|].
  exists h. split; [done|]. split; [done|].
  intros H50 inp.
  apply (Step_fault h inp (mkInstruction "UNK" 0)); [|done].
  apply getInstruction_out. lia.
Qed.

Lemma calls_pc_range_witness :
  ∃ h, calls NewMachine (replicate 50 (CallStep 0)) = Some h
    ∧ pc h = 50 ∧ Step h 0 = Some (set_state h CPUbadinst, []).
Proof.
  destruct (calls_pc_range (replicate 50 (CallStep 0))) as (h & Hc & _ & H50).
  exists h. split; [done|].
  assert (pc h = 50) as Hpc.
  { revert Hc. vm_compute. by intros [= <-]. }
  split; [done|]. by apply H50.
Defined.

(** ** Arithmetic *)

Section Arithmetic.

Context (h : Machine) (inp a m : Z) (name : string).
Context (Ht : typed h = true) (Hb : bounded h = true).
Context (Hm : mem h !! Z.to_nat a = Some m).
Context (Hg : getInstruction h (pc h) = Some (mkInstruction name a, CPUok, h)).

Lemma arith_operands :
  0 <= pc h < 50 ∧ index (mem h) a = Some m
  ∧ -99999 <= ac h <= 99999 ∧ -99999 <= mq h <= 99999
  ∧ -99999 <= m <= 99999.
Proof using Ht Hb Hm Hg.
  destruct (Step_outcome h 0 Ht)
    as (i & cs & Hg' & [(Hcs & _)|(_ & Hpc & Ha & _)]);
    rewrite Hg in Hg'; injection Hg' as <- <-; [done|]. simpl in Ha.
  apply bounded_iff in Hb as (Hl & Hmem & Hac & Hmq).
  destruct (index_Some (mem h) a) as (v & Hv & Hv'); [lia|].
  assert (v = m) as -> by congruence.
  rewrite Forall_forall in Hmem.
  pose proof (Hmem m (list_elem_of_lookup_2 _ _ _ Hm)) as Hml.
  apply legal_true in Hac, Hmq, Hml. done.
Qed.

Lemma arith_step :
  Step h inp =
    '(h2, evs) ← dispatch (set_pc h (pc h + 1)) (mkInstruction name a) inp;
    Some (h2, traced h (mkInstruction name a) ++ evs).
Proof using Ht Hb Hm Hg.
  destruct arith_operands as (Hpc & _).
  rewrite (Step_run h inp _ Hg). unfold GoInt.add.
  rewrite wrap_small; [done|].
  unfold GoInt.is_int, GoInt.min_int, GoInt.max_int. lia.
Qed.

End Arithmetic.

(** X10. On a machine whose numbers are in the legal range, ADD, SUB and
    MUL give the capped value of the exact sum, difference and product:
    the 64-bit arithmetic of the code never wraps there.  ADD and SUB work
    on AC, MUL on MQ; the other register, the memory and the state are
    kept and the program counter moves on by one. *)
Theorem Step_arithmetic (h : Machine) (inp a m : Z) :
  typed h = true → bounded h = true →
  mem h !! Z.to_nat a = Some m →
  (getInstruction h (pc h) = Some (mkInstruction "ADD" a, CPUok, h) →
     Step h inp
     = Some (set_ac (set_pc h (pc h + 1)) (boundsCap (ac h + m)),
             traced h (mkInstruction "ADD" a)))
  ∧ (getInstruction h (pc h) = Some (mkInstruction "SUB" a, CPUok, h) →
     Step h inp
     = Some (set_ac (set_pc h (pc h + 1)) (boundsCap (ac h - m)),
             traced h (mkInstruction "SUB" a)))
  ∧ (getInstruction h (pc h) = Some (mkInstruction "MUL" a, CPUok, h) →
     Step h inp
     = Some (set_mq (set_pc h (pc h + 1)) (boundsCap (mq h * m)),
             traced h (mkInstruction "MUL" a))).
Proof.
  intros Ht Hb Hm.
  assert (∀ x, - 10 ^ 11 <= x <= 10 ^ 11 → GoInt.wrap x = x) as Hwrap.
  { intros x Hx. apply wrap_small.
    unfold GoInt.is_int, GoInt.min_int, GoInt.max_int. lia. }
  repeat apply conj; intros Hg;
    destruct (arith_operands h a m _ Ht Hb Hm Hg)
      as (Hpc & Hi & Hac & Hmq & Hml);
    rewrite (arith_step h inp a m _ Ht Hb Hm Hg);
    unfold dispatch, op_is; simpl; rewrite Hi; simpl;
    rewrite app_nil_r.
  - unfold GoInt.add. rewrite Hwrap by lia. done.
  - unfold GoInt.sub. rewrite Hwrap by lia. done.
  - unfold GoInt.mul. rewrite Hwrap by nia. done.
Qed.

Lemma Step_arithmetic_witness :
  ∃ h', Step (fixture 22001 4 33333) 0 = Some (h', []) ∧ mq h' = 99999.
Proof.
  destruct (Step_arithmetic (fixture 22001 4 33333) 0 1 4
              eq_refl eq_refl eq_refl) as (_ & _ & Hmul).
  eexists. split; [apply Hmul; by vm_compute|done].
Defined.

(** ** The trace flag *)

Lemma dispatch_set_trace h b i inp :
  dispatch (set_trace h b) i inp
  = (λ '(h', e), (set_trace h' b, e)) <$> dispatch h i inp.
Proof.
  destruct h as [m p a q s t].
  dispatch_cases i; unfold set_trace, set_ac, set_mq, set_pc, set_mem,
    set_state; simpl;
    repeat match goal with
    | |- context [index ?m ?a] => destruct (index m a); simpl
    | |- context [store ?m ?a ?v] => destruct (store m a v); simpl
    | |- context [GoInt.rem ?a ?b] => destruct (GoInt.rem a b); simpl
    | |- context [GoInt.quo ?a ?b] => destruct (GoInt.quo a b); simpl
    | |- context [if ?b then _ else _] => destruct b; simpl
    end; done.
Qed.

(** X11. The trace flag is a side channel.  With the flag the other way
    round, a step yields the same machine (the flag apart, which no step
    changes) and makes the same hook calls; only the trace event differs.
    Toggling the flag twice restores the machine. *)
Theorem Step_trace_flag (h : Machine) (inp : Z) :
  typed h = true →
  ∃ h' evs evs',
    Step h inp = Some (h', evs)
    ∧ Step (ToggleTrace h) inp = Some (ToggleTrace h', evs')
    ∧ hooks evs = hooks evs'
    ∧ trace h' = trace h
    ∧ ToggleTrace (ToggleTrace h) = h.
Proof.
  intros Ht.
  assert (ToggleTrace (ToggleTrace h) = h) as Htwice.
  { destruct h as [m p a q s t]. unfold ToggleTrace, set_trace. simpl.
    by rewrite negb_involutive. }
  destruct (Step_kept h inp Ht) as (h' & evs & Hs & Hk).
  pose proof (kept_trace _ _ Hk) as Htr.
  destruct (getInstruction_total h (pc h) Ht) as (i & cs & Hg & _ & _).
  pose proof (getInstruction_agree h (ToggleTrace h) (pc h) i cs eq_refl Hg)
    as Hg'.
  change (pc h) with (pc (ToggleTrace h)) in Hg' at 1.
  destruct (decide (cs = CPUok)) as [->|Hcs].
  - rewrite (Step_run h inp i Hg) in Hs.
    pose proof (Step_run (ToggleTrace h) inp i Hg') as Hs'.
    change (set_pc (ToggleTrace h) (GoInt.add (pc (ToggleTrace h)) 1))
      with (set_trace (set_pc h (GoInt.add (pc h) 1)) (negb (trace h)))
      in Hs'.
    rewrite dispatch_set_trace in Hs'.
    destruct (dispatch (set_pc h _) i inp) as [[h2 e2]|] eqn:Hd; [|done].
    simpl in Hs, Hs'. injection Hs as <- <-.
    exists h2, (traced h i ++ e2), (traced (ToggleTrace h) i ++ e2).
    split. { by rewrite (Step_run h inp i Hg), Hd. }
    split. { rewrite Hs'. unfold ToggleTrace. by rewrite Htr. }
    split; [by rewrite !hooks_traced|]. done.
  - rewrite (Step_fault h inp i cs Hg Hcs) in Hs. injection Hs as <- <-.
    exists (set_state h cs), [], [].
    split. { by apply (Step_fault h inp i cs). }
    split. { by rewrite (Step_fault (ToggleTrace h) inp i cs Hg' Hcs). }
    done.
Qed.

Lemma Step_trace_flag_witness :
  ∃ h' evs evs',
    Step (fixture 31001 42 0) 0 = Some (h', evs)
    ∧ Step (ToggleTrace (fixture 31001 42 0)) 0 = Some (ToggleTrace h', evs')
    ∧ hooks evs = hooks evs'
    ∧ trace h' = trace (fixture 31001 42 0)
    ∧ ToggleTrace (ToggleTrace (fixture 31001 42 0)) = fixture 31001 42 0.
Proof. exact (Step_trace_flag (fixture 31001 42 0) 0 eq_refl). Defined.

(** ** Running *)

Lemma Halted_true h : Halted h = true ↔ state h ≠ CPUok.
Proof. unfold Halted. by destruct (decide (state h ≠ CPUok)). Qed.

Lemma Halted_false h : Halted h = false ↔ state h = CPUok.
Proof.
  unfold Halted. destruct (decide (state h ≠ CPUok)) as [Hne|He].
  - split; [done|]. intros. done.
  - split; [|done]. intros _. by destruct (decide (state h = CPUok)).
Qed.

Lemma Run_steps inps : ∀ h,
  typed h = true →
  ∃ h' evs ended used rest,
    Run h inps = Some (h', evs, ended) ∧ inps = used ++ rest
    ∧ Steps h used = Some (h', evs)
    ∧ (ended = true →
         used ≠ [] ∧ state h' ≠ CPUok
         ∧ ∀ rest', Run h (used ++ rest') = Some (h', evs, true))
    ∧ (ended = false → rest = [] ∧ (used ≠ [] → state h' = CPUok))
    ∧ (∀ p q, used = p ++ q → p ≠ [] → q ≠ [] →
         ∃ hp ep, Steps h p = Some (hp, ep) ∧ state hp = CPUok).
Proof.
  induction inps as [|inp inps IH]; intros h Ht.
  - exists h, [], false, [], []. simpl. repeat split; try done.
    intros p q Hpq. by destruct p.
  - destruct (Step_kept h inp Ht) as (h1 & e1 & Hs & Hk).
    pose proof (kept_typed _ _ Hk Ht) as Ht1.
    simpl. rewrite Hs. simpl.
    destruct (Halted h1) eqn:Hh.
    + exists h1, e1, true, [inp], inps. simpl. rewrite Hs. simpl.
      rewrite app_nil_r. repeat split; try done.
      * by apply Halted_true.
      * intros rest'. by rewrite Hh.
      * intros p q Hpq Hp Hq. destruct p as [|x p]; [done|].
        injection Hpq as _ Hpq. by destruct p, q.
    + destruct (IH h1 Ht1)
        as (h' & evs & ended & used & rest & Hr & -> & Hst & He & Hn & Hmid).
      rewrite Hr. simpl.
      exists h', (e1 ++ evs), ended, (inp :: used), rest.
      simpl. rewrite Hs. simpl. rewrite Hst. simpl.
      repeat split; try done.
      * by apply He.
      * intros rest'. rewrite Hh.
        destruct (He H) as (_ & _ & Hmore). by rewrite Hmore.
      * by apply Hn.
      * intros _. destruct used as [|u used].
        -- simpl in Hst. injection Hst as <- _. by apply Halted_false.
        -- by apply Hn.
      * intros p q Hpq Hp Hq. destruct p as [|x p]; [done|].
        injection Hpq as <- ->. simpl. rewrite Hs. simpl.
        destruct p as [|y p].
        -- simpl. eexists _, _. split; [done|]. by apply Halted_false.
        -- destruct (Hmid (y :: p) q eq_refl) as (hp & ep & Hsp & Hok);
             [done..|].
           rewrite Hsp. simpl. by eexists _, _.
Qed.

(** X12. [Run] makes the steps one after the other and stops after the
    first one that leaves the machine in a state other than [CPUok]: it
    takes at least one step, its result is that of those steps, every
    machine before the last was runnable, and values the read hook would
    have returned later play no part.  As long as the state stays [CPUok]
    it does not return. *)
Theorem Run_stops_at_first_halt (h : Machine) (inps : list Z) :
  typed h = true →
  ∃ h' evs ended used rest,
    Run h inps = Some (h', evs, ended) ∧ inps = used ++ rest
    ∧ Steps h used = Some (h', evs)
    ∧ (ended = true →
         used ≠ [] ∧ state h' ≠ CPUok
         ∧ ∀ rest', Run h (used ++ rest') = Some (h', evs, true))
    ∧ (ended = false → rest = [] ∧ (used ≠ [] → state h' = CPUok))
    ∧ (∀ p q, used = p ++ q → p ≠ [] → q ≠ [] →
         ∃ hp ep, Steps h p = Some (hp, ep) ∧ state hp = CPUok).
Proof. intros Ht. by apply Run_steps. Qed.

Lemma Run_stops_at_first_halt_witness :
  ∃ h' evs ended used rest,
    Run (fixture 10001 0 0) [0; 0; 0] = Some (h', evs, ended)
    ∧ [0; 0; 0] = used ++ rest
    ∧ Steps (fixture 10001 0 0) used = Some (h', evs)
    ∧ (ended = true →
         used ≠ [] ∧ state h' ≠ CPUok
         ∧ ∀ rest', Run (fixture 10001 0 0) (used ++ rest')
                    = Some (h', evs, true))
    ∧ (ended = false → rest = [] ∧ (used ≠ [] → state h' = CPUok))
    ∧ (∀ p q, used = p ++ q → p ≠ [] → q ≠ [] →
         ∃ hp ep, Steps (fixture 10001 0 0) p = Some (hp, ep)
                  ∧ state hp = CPUok).
Proof.
  exact (Run_stops_at_first_halt (fixture 10001 0 0) [0; 0; 0] eq_refl).
Defined.

(** X13. [Run] steps before it looks at the state: on a machine that is
    not runnable it still takes one step -- which executes the word at PC
    if that is an instruction -- and stops after it. *)
Theorem Run_on_stopped_machine (h : Machine) (inp : Z) (rest : list Z) :
  typed h = true → state h ≠ CPUok →
  ∃ h1 e1, Step h inp = Some (h1, e1)
    ∧ Run h (inp :: rest) = Some (h1, e1, true)
    ∧ state h1 ≠ CPUok.
Proof.
  intros Ht Hne. destruct (Step_kept h inp Ht) as (h1 & e1 & Hs & Hk).
  exists h1, e1. split; [done|].
  assert (state h1 ≠ CPUok) as Hne1.
  { intros Hok. by apply Hne, Hk. }
  split; [|done]. simpl. rewrite Hs. simpl.
  apply Halted_true in Hne1. by rewrite Hne1.
Qed.

Lemma Run_on_stopped_machine_witness :
  ∃ h1 e1,
    Step (set_state (fixture 10001 42 0) CPUhalt) 0 = Some (h1, e1)
    ∧ Run (set_state (fixture 10001 42 0) CPUhalt) [0; 0]
      = Some (h1, e1, true)
    ∧ state h1 ≠ CPUok.
Proof.
  exact (Run_on_stopped_machine (set_state (fixture 10001 42 0) CPUhalt) 0 [0]
           eq_refl ltac:(done)).
Defined.

(** X14. A runnable machine whose word at PC is a jump to its own address
    is a fixed point of [Step]: no step changes it or calls a hook, and
    [Run] does not return from it, however many rounds it is given. *)
Theorem Run_self_jump (h : Machine) (inps : list Z) :
  typed h = true → state h = CPUok →
  getInstruction h (pc h) = Some (mkInstruction "JMP" (pc h), CPUok, h) →
  (∀ inp, ∃ evs, Step h inp = Some (h, evs) ∧ hooks evs = [])
  ∧ ∃ evs, Run h inps = Some (h, evs, false) ∧ hooks evs = [].
Proof.
  intros Ht Hok Hg.
  assert (∀ inp, Step h inp
                 = Some (h, traced h (mkInstruction "JMP" (pc h)))) as Hstep.
  { intros inp. rewrite (Step_run h inp _ Hg).
    unfold dispatch, op_is. simpl. rewrite app_nil_r.
    by destruct h. }
  split.
  - intros inp. eexists. split; [apply Hstep|].
    rewrite <- (app_nil_r (traced _ _)). by rewrite hooks_traced.
  - induction inps as [|inp inps (evs & IH & Hh)].
    + by exists [].
    + simpl. rewrite Hstep. simpl.
      apply Halted_false in Hok. rewrite Hok, IH. simpl.
      eexists. split; [done|]. by rewrite hooks_traced.
Qed.

Lemma Run_self_jump_witness :
  ∃ evs, Run (fixture 5000 0 0) [1; 2; 3] = Some (fixture 5000 0 0, evs, false)
    ∧ hooks evs = [].
Proof.
  destruct (Run_self_jump (fixture 5000 0 0) [1; 2; 3] eq_refl eq_refl eq_refl)
    as [_ Hrun].
  exact Hrun.
Defined.

(** ** The lines the pattern accepts *)

Section Forward.

Import Regexp.

Context (w : list ascii).

Lemma run_class_hit p pre b post c k :
  w = pre ++ b :: post → p b = true →
  run w (Class p) (length pre) c k = k (S (length pre)) c.
Proof.
  intros -> Hp. simpl. unfold one.
  by rewrite list_lookup_middle, Hp.
Qed.

Lemma run_class_miss p pre post c k :
  w = pre ++ post → starts_with p post = false →
  run w (Class p) (length pre) c k = None.
Proof.
  intros -> Hp. simpl. unfold one.
  destruct post as [|b post].
  - rewrite app_nil_r, lookup_ge_None_2; [done|lia].
  - simpl in Hp. by rewrite list_lookup_middle, Hp.
Qed.

Lemma star_class_greedy p k c res xs : ∀ pre post fuel,
  w = pre ++ xs ++ post → Forall (λ x, p x = true) xs →
  starts_with p post = false → (length xs < fuel)%nat →
  k (length pre + length xs)%nat c = Some res →
  star_loop (run w (Class p)) k fuel (length pre) c = Some res.
Proof.
  induction xs as [|x xs IH]; intros pre post fuel Hw Hxs Hpost Hfuel Hk.
  - destruct fuel as [|fuel]; [simpl in Hfuel; lia|]. cbn [star_loop].
    rewrite (run_class_miss p pre post) by done.
    simpl in Hk. by rewrite Nat.add_0_r in Hk.
  - destruct fuel as [|fuel]; [simpl in Hfuel; lia|]. cbn [star_loop].
    apply Forall_cons in Hxs as [Hx Hxs].
    rewrite (run_class_hit p pre x (xs ++ post)) by done.
    replace (length pre <? S (length pre))%nat with true
      by (symmetry; apply Nat.ltb_lt; lia).
    replace (S (length pre)) with (length (pre ++ [x]))
      by (rewrite length_app; simpl; lia).
    rewrite (IH (pre ++ [x]) post fuel); try done.
    + by rewrite <- app_assoc.
    + simpl in Hfuel. lia.
    + rewrite length_app. simpl in *.
      by replace (length pre + 1 + length xs)%nat
        with (length pre + S (length xs))%nat by lia.
Qed.

Lemma run_star_class p k c res xs pre post :
  w = pre ++ xs ++ post → Forall (λ x, p x = true) xs →
  starts_with p post = false →
  k (length pre + length xs)%nat c = Some res →
  run w (Star (Class p)) (length pre) c k = Some res.
Proof.
  intros Hw Hxs Hpost Hk. simpl.
  change (star_loop (run w (Class p)) k (S (length w)) (length pre) c
          = Some res).
  eapply star_class_greedy; try done.
  rewrite Hw, !length_app. lia.
Qed.

Lemma run_plus_class p k c res x xs pre post :
  w = pre ++ (x :: xs) ++ post → Forall (λ x, p x = true) (x :: xs) →
  starts_with p post = false →
  k (length pre + S (length xs))%nat c = Some res →
  run w (Plus (Class p)) (length pre) c k = Some res.
Proof.
  intros Hw [Hx Hxs]%Forall_cons Hpost Hk.
  change (run w (Class p) (length pre) c
            (λ j c', run w (Star (Class p)) j c' k) = Some res).
  rewrite (run_class_hit p pre x (xs ++ post)) by done.
  replace (S (length pre)) with (length (pre ++ [x]))
    by (rewrite length_app; simpl; lia).
  apply (run_star_class p k c res xs (pre ++ [x]) post); try done.
  - by rewrite <- app_assoc.
  - rewrite length_app. simpl.
    by replace (length pre + 1 + length xs)%nat
      with (length pre + S (length xs))%nat by lia.
Qed.

Lemma slice_suffix pre rest :
  w = pre ++ rest → slice w (length pre) (length w) = rest.
Proof.
  intros ->. unfold slice. rewrite drop_app_length, length_app.
  apply take_ge. lia.
Qed.

(** The comments of a line: nothing, or a white-space character and
    characters that are not newlines. *)
Lemma run_rest k c res pre rest :
  w = pre ++ rest →
  is_empty rest || starts_with space rest = true →
  Forall (λ x, dot x = true) rest →
  k (length w) (if is_empty rest then c else set_cap c 3 rest) = Some res →
  run w (Star (Group 3 (Cat (Class space) (Star (Class dot)))))
    (length pre) c k = Some res.
Proof.
  intros Hw Hshape Hdot Hk.
  set (g := Group 3 (Cat (Class space) (Star (Class dot)))).
  change (star_loop (run w g) k (S (length w)) (length pre) c = Some res).
  assert (∀ c' K, run w g (length w) c' K = None) as Hend.
  { intros c' K. unfold g. simpl run at 1.
    change (run w (Class space) (length w) c' ?k)
      with (one w space (length w) c' k).
    unfold one. by rewrite lookup_ge_None_2. }
  destruct rest as [|s rest].
  - rewrite app_nil_r in Hw. subst pre. cbn [star_loop].
    by rewrite Hend.
  - simpl in Hshape, Hk. apply Forall_cons in Hdot as [_ Hdot].
    cbn [star_loop].
    assert (length pre < length w)%nat as Hlt.
    { rewrite Hw, length_app. simpl. lia. }
    assert (run w g (length pre) c
              (λ j c', if (length pre <? j)%nat
                       then star_loop (run w g) k (length w) j c'
                       else None) = Some res) as ->; [|done].
    unfold g at 1.
    change (run w (Class space) (length pre) c
              (λ j c', run w (Star (Class dot)) j c'
                 (λ j' c'',
                    (λ j c', if (length pre <? j)%nat
                             then star_loop (run w g) k (length w) j c'
                             else None)
                      j' (set_cap c'' 3 (slice w (length pre) j'))))
            = Some res).
    rewrite (run_class_hit space pre s rest) by done.
    replace (S (length pre)) with (length (pre ++ [s]))
      by (rewrite length_app; simpl; lia).
    apply (run_star_class dot _ c res rest (pre ++ [s]) []); try done.
    + by rewrite app_nil_r, <- app_assoc.
    + replace (length (pre ++ [s]) + length rest)%nat with (length w)
        by (rewrite Hw, !length_app; simpl; lia).
      cbv beta.
      replace (length pre <? length w)%nat with true
        by (symmetry; apply Nat.ltb_lt; lia).
      rewrite (slice_suffix pre (s :: rest)) by done.
      destruct (length w) as [|n] eqn:Hn; [lia|].
      cbn [star_loop]. by rewrite Hend.
Qed.

End Forward.

Section Accepts.

Import Regexp.

Context (w : list ascii).

Lemma run_cat r1 r2 i c k :
  run w (Cat r1 r2) i c k = run w r1 i c (λ j c', run w r2 j c' k).
Proof. done. Qed.

Lemma run_group n r i c k :
  run w (Group n r) i c k
  = run w r i c (λ j c', k j (set_cap c' n (slice w i j))).
Proof. done. Qed.

Lemma run_bol c k : run w Bol 0 c k = k 0%nat c.
Proof. done. Qed.

Lemma run_eol c k : run w Eol (length w) c k = k (length w) c.
Proof. simpl. by rewrite Nat.eqb_refl. Qed.

Lemma run_class_at p pre b post c k i res :
  w = pre ++ b :: post → i = length pre → p b = true →
  k (S i) c = Some res → run w (Class p) i c k = Some res.
Proof. intros Hw -> Hp Hk. by rewrite (run_class_hit w p pre b post). Qed.

Lemma run_star_at p k c res xs pre post i :
  w = pre ++ xs ++ post → i = length pre →
  Forall (λ x, p x = true) xs → starts_with p post = false →
  k (i + length xs)%nat c = Some res →
  run w (Star (Class p)) i c k = Some res.
Proof. intros Hw -> Hxs Hp Hk. by eapply run_star_class. Qed.

Lemma run_plus_at p k c res xs pre post i :
  w = pre ++ xs ++ post → i = length pre → xs ≠ [] →
  Forall (λ x, p x = true) xs → starts_with p post = false →
  k (i + length xs)%nat c = Some res →
  run w (Plus (Class p)) i c k = Some res.
Proof.
  intros Hw -> Hne Hxs Hp Hk. destruct xs as [|x xs]; [done|].
  by eapply run_plus_class.
Qed.

Lemma run_rest_at k c res pre rest i :
  w = pre ++ rest → i = length pre →
  is_empty rest || starts_with space rest = true →
  Forall (λ x, dot x = true) rest →
  k (length w) (if is_empty rest then c else set_cap c 3 rest) = Some res →
  run w (Star (Group 3 (Cat (Class space) (Star (Class dot))))) i c k
  = Some res.
Proof. intros Hw -> Hs Hd Hk. by eapply run_rest. Qed.

Lemma find_from_hit r n i j c :
  run w r i no_caps (λ j c, Some (j, c)) = Some (j, c) →
  find_from w r n i = Some (i, j, c).
Proof. intros Hr. destruct n; simpl; by rewrite Hr. Qed.

End Accepts.

Lemma slice_middle (w pre xs post : list ascii) i j :
  w = pre ++ xs ++ post →
  i = length pre → j = (length pre + length xs)%nat →
  Regexp.slice w i j = xs.
Proof.
  intros -> -> ->. unfold Regexp.slice.
  rewrite drop_app_length.
  replace (length pre + length xs - length pre)%nat with (length xs) by lia.
  by rewrite take_app_length.
Qed.

Lemma digit_not_space c : Regexp.digit c = true → Regexp.space c = false.
Proof.
  unfold Regexp.digit, Regexp.space.
  intros [H1%Nat.leb_le H2%Nat.leb_le]%andb_true_iff.
  repeat (apply orb_false_iff; split); apply Nat.eqb_neq; lia.
Qed.

Lemma digit_not_dash c :
  Regexp.digit c = true → Ascii.eqb "-" c = false.
Proof.
  intros Hd. destruct (Ascii.eqb_spec "-" c) as [<-|]; [|done].
  by vm_compute in Hd.
Qed.

Lemma space_not_digit c : Regexp.space c = true → Regexp.digit c = false.
Proof.
  intros Hs. destruct (Regexp.digit c) eqn:Hd; [|done].
  by rewrite (digit_not_space c Hd) in Hs.
Qed.

Lemma l_wf_elim l :
  l_wf l = true →
  l_addr l ≠ [] ∧ Forall (λ x, Regexp.digit x = true) (l_addr l)
  ∧ Forall (λ x, Regexp.space x = true) (l_gap l)
  ∧ l_digits l ≠ [] ∧ Forall (λ x, Regexp.digit x = true) (l_digits l)
  ∧ is_empty (l_rest l) || starts_with Regexp.space (l_rest l) = true.
Proof.
  unfold l_wf. rewrite !andb_true_iff, !forallb_Forall.
  intros [[[[[Ha Had] Hg] Hd] Hdd] Hr].
  repeat split; try done.
  - by destruct (l_addr l).
  - by destruct (l_digits l).
Qed.

Ltac list_eq := repeat first [rewrite <- app_assoc | progress simpl]; done.

Ltac len_eq :=
  repeat first [rewrite length_app | rewrite length_replicate
               | progress simpl];
  lia.

Lemma re_accepts (l : Line) :
  l_wf l = true → Forall (λ x, Regexp.dot x = true) (l_rest l) →
  Regexp.FindStringSubmatch re (l_text l)
  = Some [l_text l; l_addr l; l_value l; l_rest l].
Proof.
  intros (Ha & Had & Hg & Hd & Hdd & Hr)%l_wf_elim Hdot.
  destruct l as [a ws n ds rest]. unfold l_text, l_value in *. simpl in *.
  set (w := a ++ ":"%char :: ws ++ (replicate n "-"%char ++ ds) ++ rest).
  set (c1 := Regexp.set_cap Regexp.no_caps 1 a).
  set (c2 := Regexp.set_cap c1 2 (replicate n "-"%char ++ ds)).
  set (c3 := if is_empty rest then c2 else Regexp.set_cap c2 3 rest).
  assert (Regexp.run w re 0 Regexp.no_caps (λ j c, Some (j, c))
          = Some (length w, c3)) as Hrun.
  { unfold re. cbv zeta. fold (Regexp.Plus (Regexp.Class Regexp.digit)).
    rewrite run_cat, run_bol. cbv beta.
    rewrite run_cat, run_group.
    eapply (run_plus_at w Regexp.digit _ _ _ a []); try done.
    cbv beta. simpl Nat.add.
    replace (Regexp.slice w 0 (length a)) with a
      by (symmetry; by eapply (slice_middle w [] a)).
    fold c1. rewrite run_cat. unfold Regexp.Lit at 1.
    eapply (run_class_at w _ a ":"%char); try done.
    cbv beta. rewrite run_cat.
    eapply (run_star_at w Regexp.space _ _ _ ws (a ++ [":"%char])
              ((replicate n "-"%char ++ ds) ++ rest)).
    { unfold w. list_eq. }
    { len_eq. }
    { done. }
    { destruct n; simpl; [|done]. destruct ds as [|d ds]; [done|]. simpl.
      apply digit_not_space. by apply Forall_cons in Hdd as [? _]. }
    cbv beta. rewrite run_cat, run_group, run_cat. unfold Regexp.Lit.
    eapply (run_star_at w (Ascii.eqb "-") _ _ _ (replicate n "-"%char)
              (a ++ ":"%char :: ws) (ds ++ rest)).
    { unfold w. list_eq. }
    { len_eq. }
    { apply Forall_replicate. done. }
    { destruct ds as [|d ds]; [done|]. simpl.
      apply digit_not_dash. by apply Forall_cons in Hdd as [? _]. }
    cbv beta.
    eapply (run_plus_at w Regexp.digit _ _ _ ds
              (a ++ ":"%char :: ws ++ replicate n "-"%char) rest).
    { unfold w. list_eq. }
    { len_eq. }
    { done. }
    { done. }
    { destruct rest as [|s rest]; [done|]. simpl in *.
      by apply space_not_digit. }
    cbv beta.
    replace (Regexp.slice w _ _) with (replicate n "-"%char ++ ds).
    2:{ symmetry.
        apply (slice_middle w (a ++ ":"%char :: ws) _ rest).
        - unfold w. list_eq.
        - len_eq.
        - len_eq. }
    fold c2. rewrite run_cat.
    eapply (run_rest_at w _ _ _
              (a ++ ":"%char :: ws ++ replicate n "-"%char ++ ds) rest).
    { unfold w. list_eq. }
    { len_eq. }
    { done. }
    { done. }
    cbv beta. by rewrite run_eol. }
  unfold Regexp.FindStringSubmatch.
  rewrite (find_from_hit w re (length w) 0 (length w) c3 Hrun).
  change (Regexp.groups re) with 3%nat. simpl map.
  do 2 f_equal.
  - unfold Regexp.slice. rewrite drop_0, Nat.sub_0_r. by apply take_ge.
  - unfold c3, c2, c1. by destruct rest.
Qed.

Lemma star_group_head w n p r i c j c' :
  Regexp.matches w
    (Regexp.Star (Regexp.Group n (Regexp.Cat (Regexp.Class p) r))) i c j c' →
  is_empty (Regexp.slice w i j) || starts_with p (Regexp.slice w i j) = true.
Proof.
  intros Hm. invert Hm.
  - by rewrite slice_nil.
  - match goal with
    | H : Regexp.matches _ (Regexp.Star _) _ _ _ _ |- _ =>
        apply matches_le in H as Hle2
    end.
    match goal with
    | H : Regexp.matches _ (Regexp.Group _ _) _ _ _ _ |- _ => invert H
    end.
    match goal with
    | H : Regexp.matches _ (Regexp.Cat _ _) _ _ _ _ |- _ => invert H
    end.
    match goal with
    | H : Regexp.matches _ r _ _ _ _ |- _ => apply matches_le in H as Hle1
    end.
    match goal with
    | H : Regexp.matches _ (Regexp.Class _) _ _ _ _ |- _ => invert H
    end.
    rewrite (slice_cons w i j b) by (done || lia). done.
Qed.

Lemma slice_all (w : list ascii) : Regexp.slice w 0 (length w) = w.
Proof. unfold Regexp.slice. rewrite drop_0, Nat.sub_0_r. by apply take_ge. Qed.

Lemma slice_one (w : list ascii) i b :
  w !! i = Some b → Regexp.slice w i (S i) = [b].
Proof. intros Hb. by rewrite (slice_cons w i (S i) b), slice_nil by (done || lia). Qed.

(** What the pattern of the loader matches: the text of a well-formed
    line, with its address and its value in groups 1 and 2. *)
Lemma re_shape w m :
  Regexp.FindStringSubmatch re w = Some m →
  ∃ l last, l_wf l = true ∧ w = l_text l
    ∧ m = [w; l_addr l; l_value l; last].
Proof.
  unfold Regexp.FindStringSubmatch.
  destruct (Regexp.find_from w re (length w) 0) as [[[i j] c]|] eqn:Hf; [|done].
  intros [= <-]. apply find_from_sound in Hf.
  change (Regexp.groups re) with 3%nat. simpl.
  unfold re, Regexp.Lit in Hf.
  invert Hf. repeat match goal with
  | H : Regexp.matches _ (Regexp.Cat (Regexp.Group _ _) _) _ _ _ _ |- _ => invert H
  | H : Regexp.matches _ (Regexp.Cat (Regexp.Class _) _) _ _ _ _ |- _ => invert H
  | H : Regexp.matches _ (Regexp.Cat (Regexp.Star _) _) _ _ _ _ |- _ => invert H
  | H : Regexp.matches _ (Regexp.Group _ _) _ _ _ _ |- _ => invert H
  | H : Regexp.matches _ (Regexp.Class _) _ _ _ _ |- _ => invert H
  | H : Regexp.matches _ Regexp.Bol _ _ _ _ |- _ => invert H
  | H : Regexp.matches _ Regexp.Eol _ _ _ _ |- _ => invert H
  end.
  repeat match goal with
  | H : Regexp.matches _ (Regexp.Plus _) _ _ _ _ |- _ =>
      apply matches_plus_class in H as (-> & ? & ? & ?)
  | H : Regexp.matches _ (Regexp.Star (Regexp.Class _)) _ _ _ _ |- _ =>
      apply matches_star_class in H as (-> & ? & ?)
  end.
  match goal with
  | H : Regexp.matches _ (Regexp.Star (Regexp.Group 3 _)) _ _ _ _ |- _ =>
      pose proof (matches_other_groups _ _ _ _ _ _ 1%nat H eq_refl) as Hc1;
      pose proof (matches_other_groups _ _ _ _ _ _ 2%nat H eq_refl) as Hc2;
      pose proof (matches_le _ _ _ _ _ _ H) as Hlen;
      apply star_group_head in H as Hrest
  end.
  rewrite Hc1, Hc2. unfold Regexp.set_cap. simpl. rewrite slice_all.
  match goal with
  | Ha : Forall (λ x, Regexp.digit x = true) (Regexp.slice w 0 ?j1),
    Hane : Regexp.slice w 0 ?j1 ≠ [],
    Hcolon : w !! ?j1 = Some ?b,
    Hb : Ascii.eqb ":" ?b = true,
    Hg : Forall (λ x, Regexp.space x = true) (Regexp.slice w (S ?j1) ?j3),
    Hdash : Forall (λ x, Ascii.eqb "-" x = true) (Regexp.slice w ?j3 ?j6),
    Hdig : Forall (λ x, Regexp.digit x = true) (Regexp.slice w ?j6 ?j4),
    Hdne : Regexp.slice w ?j6 ?j4 ≠ [] |- _ =>
      exists (mkLine (Regexp.slice w 0 j1) (Regexp.slice w (S j1) j3)
                (length (Regexp.slice w j3 j6)) (Regexp.slice w j6 j4)
                (Regexp.slice w j4 (length w))), (c 3%nat);
      apply Ascii.eqb_eq in Hb; subst b;
      assert (Regexp.slice w j3 j4
              = replicate (length (Regexp.slice w j3 j6)) "-"%char
                ++ Regexp.slice w j6 j4) as Hval
        by (rewrite (slice_app w j3 j6 j4) by lia;
            by rewrite <- (all_dashes _ Hdash));
      split; [|split]
  end.
  - unfold l_wf. simpl. rewrite !andb_true_iff, !forallb_Forall.
    repeat split; try done.
    + by destruct (Regexp.slice w 0 j1).
    + by destruct (Regexp.slice w j6 j4).
  - unfold l_text, l_value. simpl. rewrite <- Hval.
    rewrite <- (slice_all w) at 1.
    rewrite (slice_app w 0 j1 (length w)) by lia. f_equal.
    rewrite (slice_cons w j1 (length w) ":"%char) by (done || lia). f_equal.
    rewrite (slice_app w (S j1) j3 (length w)) by lia. f_equal.
    rewrite (slice_app w j3 j4 (length w)) by lia. done.
  - by rewrite Hval.
Qed.

(** X15. On a line without a newline -- such is every line the scanner
    hands over -- the pattern of the loader matches exactly the
    well-formed lines: digits, a colon, any white space, any number of
    dashes and digits, then nothing or a white-space character and
    anything.  The match is the whole line, group 1 the digits before the
    colon, group 2 the dashes and digits, group 3 what follows them. *)
Theorem re_grammar (w : list ascii) (m : list (list ascii)) :
  forallb Regexp.dot w = true →
  Regexp.FindStringSubmatch re w = Some m
  ↔ ∃ l, l_wf l = true ∧ w = l_text l
      ∧ m = [w; l_addr l; l_value l; l_rest l].
Proof.
  intros Hdot%forallb_Forall.
  assert (∀ l, w = l_text l → Forall (λ x, Regexp.dot x = true) (l_rest l))
    as Hrest.
  { intros l ->. unfold l_text in Hdot.
    apply Forall_app in Hdot as [_ Hdot].
    apply Forall_cons in Hdot as [_ Hdot].
    apply Forall_app in Hdot as [_ Hdot].
    by apply Forall_app in Hdot as [_ Hdot]. }
  split.
  - intros Hm. destruct (re_shape w m Hm) as (l & last & Hwf & Hw & ->).
    exists l. split; [done|]. split; [done|].
    pose proof (re_accepts l Hwf (Hrest l Hw)) as Hacc.
    rewrite <- Hw in Hacc. congruence.
  - intros (l & Hwf & Hw & ->). rewrite Hw at 1 2.
    by rewrite (re_accepts l Hwf (Hrest l Hw)).
Qed.

Lemma re_grammar_witness :
  Regexp.FindStringSubmatch re (bytes "07:  -5 // x")
  = Some [bytes "07:  -5 // x"; bytes "07"; bytes "-5"; bytes " // x"].
Proof.
  apply (re_grammar (bytes "07:  -5 // x")); [done|].
  by exists (mkLine (bytes "07") (bytes "  ") 1 (bytes "5") (bytes " // x")).
Defined.

(** ** What a line does *)

Lemma Atoi_digits a :
  a ≠ [] → Forall (λ x, Regexp.digit x = true) a →
  strconv.Atoi a
  = if decimal a <=? GoInt.max_int then Some (decimal a) else None.
Proof. intros Hne Ha. exact (Atoi_token 0 a Hne Ha). Qed.

Lemma parseLine_text l :
  l_wf l = true → Forall (λ x, Regexp.dot x = true) (l_rest l) →
  parseLine (l_text l) =
    if 50 <=? decimal (l_addr l) then inl loadErrBadAddr
    else
      match l_dashes l with
      | O =>
          if decimal (l_digits l) <=? GoInt.max_int
          then inr (decimal (l_addr l), decimal (l_digits l))
          else inl loadErrBadValue
      | S O =>
          if decimal (l_digits l) <=? 2 ^ 63
          then inr (decimal (l_addr l), - decimal (l_digits l))
          else inl loadErrBadValue
      | _ => inl loadErrBadValue
      end.
Proof.
  intros Hwf Hdot. unfold parseLine.
  rewrite (re_accepts l Hwf Hdot). simpl nth.
  apply l_wf_elim in Hwf as (Ha & Had & _ & Hd & Hdd & _).
  rewrite (Atoi_digits _ Ha Had).
  pose proof (decimal_nonneg _ Had) as Hpos.
  destruct (Z.leb_spec 50 (decimal (l_addr l))) as [Hge|Hlt].
  - destruct (Z.leb_spec (decimal (l_addr l)) GoInt.max_int); [|done].
    assert ((decimal (l_addr l) <? 0) || (decimal (l_addr l) >=? memSize)
            = true) as ->; [|done].
    apply orb_true_iff. right. rewrite Z.geb_leb. by apply Z.leb_le.
  - destruct (Z.leb_spec (decimal (l_addr l)) GoInt.max_int) as [_|Hbig].
    2:{ unfold GoInt.max_int in Hbig. lia. }
    assert ((decimal (l_addr l) <? 0) || (decimal (l_addr l) >=? memSize)
            = false) as ->.
    { apply orb_false_iff. rewrite Z.geb_leb. unfold memSize.
      split; [apply Z.ltb_ge|apply Z.leb_gt]; lia. }
    unfold l_value. rewrite (Atoi_token _ _ Hd Hdd).
    destruct (l_dashes l) as [|[|n]]; [| |done].
    + by destruct (decimal (l_digits l) <=? GoInt.max_int).
    + by destruct (decimal (l_digits l) <=? 2 ^ 63).
Qed.

Lemma l_text_rest w l :
  forallb Regexp.dot w = true → w = l_text l →
  Forall (λ x, Regexp.dot x = true) (l_rest l).
Proof.
  intros Hdot ->. apply forallb_Forall in Hdot. unfold l_text in Hdot.
  apply Forall_app in Hdot as [_ Hdot].
  apply Forall_cons in Hdot as [_ Hdot].
  apply Forall_app in Hdot as [_ Hdot].
  by apply Forall_app in Hdot as [_ Hdot].
Qed.

Lemma parseLine_no_bad_file w : parseLine w ≠ inl loadErrBadFile.
Proof.
  unfold parseLine.
  destruct (Regexp.FindStringSubmatch re w) as [m|]; [|done].
  destruct (strconv.Atoi (nth 1 m [])) as [x|]; [|done].
  destruct ((x <? 0) || (x >=? memSize)); [done|].
  by destruct (strconv.Atoi (nth 2 m [])).
Qed.

Lemma parseLine_matched w e :
  parseLine w = inl e → e ≠ loadErrBadLine →
  ∃ l, l_wf l = true ∧ w = l_text l.
Proof.
  unfold parseLine.
  destruct (Regexp.FindStringSubmatch re w) as [m|] eqn:Hm.
  - intros _ _. destruct (re_shape w m Hm) as (l & last & Hwf & Hw & _).
    by exists l.
  - by intros [= <-].
Qed.

Lemma parseLine_text_matched l :
  l_wf l = true → Forall (λ x, Regexp.dot x = true) (l_rest l) →
  parseLine (l_text l) ≠ inl loadErrBadLine.
Proof.
  intros Hwf Hdot. rewrite (parseLine_text l Hwf Hdot).
  destruct (50 <=? decimal (l_addr l)); [done|].
  destruct (l_dashes l) as [|[|n]]; [| |done].
  - by destruct (decimal (l_digits l) <=? GoInt.max_int).
  - by destruct (decimal (l_digits l) <=? 2 ^ 63).
Qed.

Lemma parseLine_bad_line w :
  forallb Regexp.dot w = true →
  parseLine w = inl loadErrBadLine ↔ ¬ ∃ l, l_wf l = true ∧ w = l_text l.
Proof.
  intros Hdot. split.
  - intros Hbad (l & Hwf & Hw). revert Hbad. rewrite Hw.
    apply (parseLine_text_matched l Hwf). by apply (l_text_rest w).
  - intros Hno. unfold parseLine.
    destruct (Regexp.FindStringSubmatch re w) as [m|] eqn:Hm; [|done].
    exfalso. apply Hno.
    destruct (re_shape w m Hm) as (l & last & Hwf & Hw & _). by exists l.
Qed.

Lemma parseLine_bad_addr l :
  l_wf l = true → Forall (λ x, Regexp.dot x = true) (l_rest l) →
  parseLine (l_text l) = inl loadErrBadAddr ↔ 50 <= decimal (l_addr l).
Proof.
  intros Hwf Hdot. rewrite (parseLine_text l Hwf Hdot).
  destruct (Z.leb_spec 50 (decimal (l_addr l))) as [Hge|Hlt]; [done|].
  split; [|lia].
  destruct (l_dashes l) as [|[|n]]; [| |done].
  - by destruct (decimal (l_digits l) <=? GoInt.max_int).
  - by destruct (decimal (l_digits l) <=? 2 ^ 63).
Qed.



(** X17. The failures of the loader, for a reader whose lines hold no
    newline.  The result is the bad-line failure exactly when the first
    line that does not load is not well-formed, the bad-address failure
    exactly when that line is well-formed with address digits that denote
    50 or more, the bad-file failure exactly when every line loads and the
    scanner reports an error, and nil exactly when every line loads and the
    scanner reports none. *)
Theorem LoadProgram_failures (h : Machine) (r : Reader) :
  Forall (λ w, forallb Regexp.dot w = true) (lines r) →
  ∃ h' e, LoadProgram h r = Some (h', e)
    ∧ (e = Some loadErrBadLine
       ↔ ∃ pre line post,
           lines r = pre ++ line :: post ∧ Forall loads pre
           ∧ ¬ ∃ l, l_wf l = true ∧ line = l_text l)
    ∧ (e = Some loadErrBadAddr
       ↔ ∃ pre l post,
           lines r = pre ++ l_text l :: post ∧ Forall loads pre
           ∧ l_wf l = true ∧ 50 <= decimal (l_addr l))
    ∧ (e = Some loadErrBadFile
       ↔ Forall loads (lines r) ∧ scan_err r = true)
    ∧ (e = None ↔ Forall loads (lines r) ∧ scan_err r = false).
Proof.
  intros Hdot. pose proof (LoadProgram_eq h r) as Heq. simpl in Heq.
  assert (∀ pre line post, lines r = pre ++ line :: post →
            forallb Regexp.dot line = true) as Hline.
  { intros pre line post Hls. rewrite Hls in Hdot.
    apply Forall_app in Hdot as [_ Hdot].
    by apply Forall_cons in Hdot as [Hdot _]. }
  destruct (firstFailure (lines r)) as [[k e]|] eqn:Hf.
  - eexists _, _. split; [exact Heq|].
    pose proof Hf as Hf'.
    apply firstFailure_Some in Hf' as (pre & line & post & Hls & Hk & Hpre & Hp).
    assert (∀ pre' line' post' e',
              lines r = pre' ++ line' :: post' → Forall loads pre' →
              parseLine line' = inl e' → e' = e) as Hsame.
    { intros pre' line' post' e' Hls' Hpre' Hp'.
      assert (firstFailure (lines r) = Some (length pre', e')) as Hf'.
      { apply firstFailure_Some. by exists pre', line', post'. }
      congruence. }
    assert (¬ Forall loads (lines r)) as Hnot.
    { intros Hall. apply firstFailure_None in Hall. congruence. }
    split; [|split; [|split]].
    + split.
      * intros [= ->]. exists pre, line, post. repeat split; try done.
        by apply parseLine_bad_line; [apply (Hline pre line post)|].
      * intros (pre' & line' & post' & Hls' & Hpre' & Hno). f_equal.
        symmetry. apply (Hsame pre' line' post'); try done.
        by apply parseLine_bad_line; [apply (Hline pre' line' post')|].
    + split.
      * intros [= ->].
        destruct (parseLine_matched line _ Hp) as (l & Hwf & Hw); [done|].
        subst line. exists pre, l, post. repeat split; try done.
        apply (parseLine_bad_addr l Hwf); [|done].
        apply (l_text_rest (l_text l)); [|done].
        by apply (Hline pre _ post).
      * intros (pre' & l & post' & Hls' & Hpre' & Hwf & Hge). f_equal.
        symmetry. apply (Hsame pre' (l_text l) post'); try done.
        apply (parseLine_bad_addr l Hwf); [|done].
        apply (l_text_rest (l_text l)); [|done].
        by apply (Hline pre' _ post').
    + split.
      * intros [= ->]. by destruct (parseLine_no_bad_file line).
      * by intros [Hall _].
    + split; [done|]. by intros [Hall _].
  - pose proof Hf as Hall. apply firstFailure_None in Hall.
    assert (∀ pre line post e,
              lines r = pre ++ line :: post → Forall loads pre →
              parseLine line = inl e → False) as Hnone.
    { intros pre line post e Hls Hpre Hp.
      assert (firstFailure (lines r) = Some (length pre, e)) as Hf'.
      { apply firstFailure_Some. by exists pre, line, post. }
      congruence. }
    destruct (scan_err r) eqn:Hs.
    + eexists _, _. split; [exact Heq|].
      split; [|split; [|split]].
      * split; [done|]. intros (pre & line & post & Hls & Hpre & Hno).
        exfalso. apply (Hnone pre line post loadErrBadLine); try done.
        by apply parseLine_bad_line; [apply (Hline pre line post)|].
      * split; [done|]. intros (pre & l & post & Hls & Hpre & Hwf & Hge).
        exfalso. apply (Hnone pre (l_text l) post loadErrBadAddr); try done.
        apply (parseLine_bad_addr l Hwf); [|done].
        apply (l_text_rest (l_text l)); [|done].
        by apply (Hline pre _ post).
      * done.
      * split; [done|]. by intros [_ ?].
    + eexists _, _. split; [exact Heq|].
      split; [|split; [|split]].
      * split; [done|]. intros (pre & line & post & Hls & Hpre & Hno).
        exfalso. apply (Hnone pre line post loadErrBadLine); try done.
        by apply parseLine_bad_line; [apply (Hline pre line post)|].
      * split; [done|]. intros (pre & l & post & Hls & Hpre & Hwf & Hge).
        exfalso. apply (Hnone pre (l_text l) post loadErrBadAddr); try done.
        apply (parseLine_bad_addr l Hwf); [|done].
        apply (l_text_rest (l_text l)); [|done].
        by apply (Hline pre _ post).
      * split; [done|]. by intros [_ ?].
      * done.
Qed.

Lemma LoadProgram_failures_witness :
  ∃ h', LoadProgram NewMachine
          (mkReader [bytes "0: 5"; bytes "050: 1"; bytes "x"] false)
        = Some (h', Some loadErrBadAddr).
Proof.
  destruct (LoadProgram_failures NewMachine
              (mkReader [bytes "0: 5"; bytes "050: 1"; bytes "x"] false))
    as (h' & e & Hl & _ & Haddr & _).
  { by repeat constructor. }
  exists h'. rewrite Hl. do 2 f_equal. apply Haddr.
  exists [bytes "0: 5"],
    (mkLine (bytes "050") (bytes " ") 0 (bytes "1") []), [bytes "x"].
  split; [reflexivity|]. split.
  - repeat constructor. by exists (0, 5).
  - split; [reflexivity|]. by vm_compute.
Defined.

(** ** The tests of the repository, on the model *)

Example TestGetInstruction :
  Forall (λ '(w, name, a, cs),
            getInstruction (fixture w 0 0) 0
            = Some (mkInstruction name a, cs, fixture w 0 0))
    [ (0, "HLT", 0, CPUok); (1001, "JEQ", 1, CPUok); (2001, "JGT", 1, CPUok);
      (3001, "JLT", 1, CPUok); (5002, "JMP", 2, CPUok);
      (6049, "JLE", 49, CPUok); (7030, "JNE", 30, CPUok);
      (10001, "LAC", 1, CPUok); (11001, "PAC", 1, CPUok);
      (12001, "LMQ", 1, CPUok); (13002, "PMQ", 2, CPUok);
      (20013, "ADD", 13, CPUok); (21014, "SUB", 14, CPUok);
      (22003, "MUL", 3, CPUok); (23022, "DIV", 22, CPUok);
      (30031, "GET", 31, CPUok); (31032, "PUT", 32, CPUok);
      (1050, "JEQ", 50, CPUbadaddr); (31050, "PUT", 50, CPUbadaddr);
      (32000, "UNK", 0, CPUbadinst); (33000, "UNK", 0, CPUbadinst) ]
  ∧ Forall (λ a0, getInstruction NewMachine a0
                  = Some (mkInstruction "UNK" 0, CPUbadinst, NewMachine))
      [ -1; 50; 51 ].
Proof. split; repeat (constructor; [by vm_compute|]); constructor. Qed.

Example TestLoadProgram :
  Forall (λ '(prog, m, e, s),
            LoadProgram NewMachine (mkReader (bytes <$> prog) false)
            = Some (mkMachine m 0 0 0 s false, e))
    [ (["0: 31000"], <[0%nat := 31000]> zeroMem, None, CPUok);
      (["0: 31000    "], <[0%nat := 31000]> zeroMem, None, CPUok);
      (["0: 31000 // A comment"], <[0%nat := 31000]> zeroMem, None, CPUok);
      (["0: 31000 // Ok"; "49: 21000 // Bookends"],
       <[49%nat := 21000]> (<[0%nat := 31000]> zeroMem), None, CPUok);
      (["0: 31000 // Ok"; "0: 21000 // Overwritten"],
       <[0%nat := 21000]> zeroMem, None, CPUok);
      (["1: 31000 // Ok"; "0: 21000 // Out of order"],
       <[0%nat := 21000]> (<[1%nat := 31000]> zeroMem), None, CPUok);
      (["1: -5 // Ok, negative  numbers"], <[1%nat := -5]> zeroMem, None,
       CPUok);
      ([": 31000 // Bad line"], zeroMem, Some loadErrBadLine, CPUhalt);
      (["1: 31aasdf // Bad line"], zeroMem, Some loadErrBadLine, CPUhalt);
      (["50: 31000 // Bad address"], zeroMem, Some loadErrBadAddr, CPUhalt);
      (["a: 31000 // Bad address, makes the line bad"], zeroMem,
       Some loadErrBadLine, CPUhalt) ].
Proof. repeat (constructor; [by vm_compute|]). constructor. Qed.

Example TestMUL :
  Forall (λ '(q, w1, want),
            (mq ∘ fst) <$> Step (fixture 22001 w1 q) 0 = Some want)
    [ (0, 1, 0); (1, 1, 1); (3, 4, 12); (33333, 4, 99999);
      (33333, -4, -99999) ].
Proof. repeat (constructor; [by vm_compute|]). constructor. Qed.

Example TestDIV :
  Forall (λ '(q, w1, wantMQ, wantAC, s),
            (λ r, (mq r.1, ac r.1, state r.1)) <$> Step (fixture 23001 w1 q) 0
            = Some (wantMQ, wantAC, s))
    [ (0, 1, 0, 0, CPUok); (12, 3, 4, 0, CPUok); (12, 9, 1, 3, CPUok);
      (-12, 9, -1, -3, CPUok); (12, 0, 12, 0, CPUdivzero) ].
Proof. repeat (constructor; [by vm_compute|]). constructor. Qed.

Example TestGet :
  Forall (λ '(inp, want),
            Step (fixture 30000 0 0) inp
            = Some (set_pc (fixture want 0 0) 1, [EvInput inp]))
    [ (42, 42); (-1000000, -99999); (99999, 99999); (-3, -3) ].
Proof. repeat (constructor; [by vm_compute|]). constructor. Qed.

Example TestPut :
  Forall (λ '(w, want),
            snd <$> Step (fixture w 0 0) 0 = Some [EvOutput want])
    [ (31000, 31000); (31001, 0) ].
Proof. repeat (constructor; [by vm_compute|]). constructor. Qed.
